(** * C4-WSRS: web-scale reverse substitution

    A shallow embedding of
    [tensorflow_datasets/text/c4_wsrs/c4_wsrs_utils.py] and of the
    dictionary loaders and builder configuration of
    [tensorflow_datasets/text/c4_wsrs/c4_wsrs.py], with the properties
    the design document states about them. *)

From Stdlib Require Import String Ascii QArith DecimalString DecimalNat Sorted.
From stdpp Require Import gmap list fin_maps.

Local Open Scope nat_scope.

(** ** Python values *)

(** A Python [str] is a sequence of Unicode code points. *)
Abbreviation char := N.
Abbreviation str := (list N).

(** String literals of the development, read as ASCII text. *)
Definition py (s : string) : str := N_of_ascii <$> list_ascii_of_string s.

Definition apostrophe : char := 39%N.
Definition space : char := 32%N.

(** The exceptions the modelled code can raise. *)
Inductive exn : Type :=
| IndexError
| ValueError.

(** The result of running a piece of Python: a value, an exception, or
    no answer within the number of loop iterations allowed. *)
Inductive outcome (A : Type) : Type :=
| Ret (a : A)
| Raise (e : exn)
| OutOfFuel.
Arguments Ret {A} a.
Arguments Raise {A} e.
Arguments OutOfFuel {A}.

Global Instance outcome_ret : MRet outcome := fun _ a => Ret a.
Global Instance outcome_bind : MBind outcome := fun _ _ k m =>
  match m with
  | Ret a => k a
  | Raise e => Raise e
  | OutOfFuel => OutOfFuel
  end.

(** [s[i:j]] for [0 <= i]: the end is clipped to the length of [s]. *)
Definition slice (s : str) (i j : nat) : str := take (j - i) (drop i s).

(** [s[i]] for [0 <= i]. *)
Definition getitem {A} (s : list A) (i : nat) : outcome A :=
  match s !! i with
  | Some c => Ret c
  | None => Raise IndexError
  end.

(** [a and b], where [b] is evaluated only when [a] is true. *)
Definition and_then (a : bool) (b : outcome bool) : outcome bool :=
  if a then b else Ret false.

(** [str.split(sep)] for a separator of one character: the text is cut
    at every occurrence, and empty pieces are kept. *)
Fixpoint split (sep : char) (s : str) : list str :=
  match s with
  | [] => [[]]
  | c :: s' =>
      if bool_decide (c = sep) then [] :: split sep s'
      else match split sep s' with
           | [] => [[c]]
           | t :: ts => (c :: t) :: ts
           end
  end.

(** A Unicode table under which nothing beyond ASCII is alphanumeric;
    it instantiates the development on ASCII text. *)
Definition ascii_table : char → bool := fun _ => false.

(** ** Random draws *)

(** The module draws from two global generators: [random], through
    [random.shuffle], and [numpy.random], through [np.random.uniform].
    A generator is the sequence of values it is going to hand out. *)
Record rng : Type := {
  py_random : nat → nat;
  np_random : nat → Q;
}.

(** [np.random.uniform(0, 1)] draws from the half-open interval. *)
Definition rng_ok (g : rng) : Prop :=
  ∀ k, (0 <= np_random g k)%Q ∧ (np_random g k < 1)%Q.

(** Code that draws: it reads and advances the generators, and may raise
    or run out of fuel. *)
Definition rand (A : Type) : Type := rng → outcome (A * rng).

Global Instance rand_ret : MRet rand := fun _ a g => Ret (a, g).
Global Instance rand_bind : MBind rand := fun _ _ k m g =>
  match m g with
  | Ret (a, g') => k a g'
  | Raise e => Raise e
  | OutOfFuel => OutOfFuel
  end.

Definition lift {A} (m : outcome A) : rand A := fun g =>
  match m with
  | Ret a => Ret (a, g)
  | Raise e => Raise e
  | OutOfFuel => OutOfFuel
  end.

(** The value a drawing computation returns, the generators dropped. *)
Definition eval {A} (m : rand A) (g : rng) : outcome A :=
  match m g with
  | Ret (a, _) => Ret a
  | Raise e => Raise e
  | OutOfFuel => OutOfFuel
  end.

Definition tail {A} (s : nat → A) : nat → A := fun k => s (S k).

(** The draw [randbelow(n)] that [random.shuffle] makes, for [n > 0]:
    some value below [n]. *)
Definition randbelow (n : nat) : rand nat := fun g =>
  Ret (py_random g 0 mod n,
       {| py_random := tail (py_random g); np_random := np_random g |}).

(** [np.random.uniform(0, 1)]. *)
Definition uniform : rand Q := fun g =>
  Ret (np_random g 0,
       {| py_random := py_random g; np_random := tail (np_random g) |}).

(** [x[i], x[j] = x[j], x[i]]; the shuffle calls it inside the list. *)
Definition swap {A} (x : list A) (i j : nat) : list A :=
  match x !! i, x !! j with
  | Some a, Some b => <[j := a]> (<[i := b]> x)
  | _, _ => x
  end.

(** [random.shuffle(x)]:
    [for i in reversed(range(1, len(x))): j = randbelow(i + 1); swap]. *)
Fixpoint shuffle_loop {A} (i : nat) (x : list A) : rand (list A) :=
  match i with
  | 0 => mret x
  | S i' => j ← randbelow (S i); shuffle_loop i' (swap x i j)
  end.

Definition shuffle {A} (x : list A) : rand (list A) :=
  shuffle_loop (length x - 1) x.

(** [u < rate], on the values of two finite floats. *)
Definition Qltb (u rate : Q) : bool := negb (Qle_bool rate u).

(** A mapping from abbreviation to expansions, in insertion order, which
    is the order [dict.items()] iterates in. *)
Abbreviation dictionary := (list (str * list str)).

Section WSRS.

(** [str.isalnum] on one character. On ASCII it is letters and digits;
    beyond ASCII it is the Unicode character database of the Python
    runtime, which the development takes as given. *)
Variable unicode_isalnum : char → bool.

Definition isalnum (c : char) : bool :=
  if (c <? 128)%N then
    ((48 <=? c) && (c <=? 57) || (65 <=? c) && (c <=? 90)
     || (97 <=? c) && (c <=? 122))%N
  else unicode_isalnum c.

(** ** c4_wsrs_utils.py *)

Record WSRSFeatures : Type := {
  original_snippet : str;
  abbreviated_snippet : str;
}.

Definition _get_dictionary_pairs (d : dictionary) : list (str * str) :=
  '(abbreviation, expansions) ← d;
  expansion ← expansions;
  [(abbreviation, expansion)].

(** [index] is a position counted from the start of the snippet, as
    the scan passes it. *)
Definition _snippet_contains_word_at_index
    (snippet word : str) (index : nat) : outcome bool :=
  if negb (bool_decide (slice snippet index (index + length word) = word))
  then Ret false
  else
    glued_left ← and_then (0 <? index)
                   (c ← getitem snippet (index - 1); Ret (isalnum c));
    if glued_left : bool then Ret false
    else
      contraction ←
        and_then (1 <? index)
          (c ← getitem snippet (index - 1);
           and_then (bool_decide (c = apostrophe))
             (c' ← getitem snippet (index - 2); Ret (isalnum c')));
      if contraction : bool then Ret false
      else
        glued_right ←
          and_then (index + length word <? length snippet)
            (c ← getitem snippet (index + length word); Ret (isalnum c));
        if glued_right : bool then Ret false else Ret true.

(** One turn of the scan: the candidates whose expansion is found at
    [snippet_idx], in dictionary order. *)
Fixpoint matching_pairs (snippet : str) (candidates : list (str * str))
    (snippet_idx : nat) : outcome (list (str * str)) :=
  match candidates with
  | [] => Ret []
  | (abbreviation, expansion) :: rest =>
      found ← _snippet_contains_word_at_index snippet expansion snippet_idx;
      pairs ← matching_pairs snippet rest snippet_idx;
      Ret (if found : bool then (abbreviation, expansion) :: pairs else pairs)
  end.

(** The loop [while snippet_idx < len(snippet)], which advances by one
    each turn; [todo] is the number of turns that remain. *)
Fixpoint extract_loop (snippet : str) (d : dictionary) (todo snippet_idx : nat)
    (index_to_pairs : gmap nat (list (str * str)))
    : outcome (gmap nat (list (str * str))) :=
  match todo with
  | 0 => Ret index_to_pairs
  | S todo' =>
      pairs ← matching_pairs snippet (_get_dictionary_pairs d) snippet_idx;
      extract_loop snippet d todo' (snippet_idx + 1)
        (match pairs with
         | [] => index_to_pairs
         | _ => <[snippet_idx := pairs]> index_to_pairs
         end)
  end.

Definition _extract_abbreviation_expansion_pairs
    (snippet : str) (abbreviation_expansions_dict : dictionary)
    : outcome (gmap nat (list (str * str))) :=
  extract_loop snippet abbreviation_expansions_dict (length snippet) 0 ∅.

(** The loop of [_abbreviate_snippet]. A turn that abbreviates an empty
    expansion does not advance, so the number of turns is not bounded by
    the snippet; [fuel] is the number of loop tests allowed. The shuffle
    is in place: the map keeps the shuffled list. *)
Fixpoint abbreviate_loop (fuel : nat) (snippet : str) (abbreviation_rate : Q)
    (index_to_pairs : gmap nat (list (str * str))) (snippet_idx : nat)
    (abbreviated_text : str) (replacements : list (str * str))
    : rand (str * list (str * str)) :=
  match fuel with
  | 0 => λ _, OutOfFuel
  | S fuel' =>
      if snippet_idx <? length snippet then
        match index_to_pairs !! snippet_idx with
        | Some pairs_and_counts =>
            shuffled ← shuffle pairs_and_counts;
            let index_to_pairs := <[snippet_idx := shuffled]> index_to_pairs in
            first ← lift (getitem shuffled 0);
            let '(abbreviation, expansion) := first in
            u ← uniform;
            if Qltb u abbreviation_rate then
              abbreviate_loop fuel' snippet abbreviation_rate index_to_pairs
                (snippet_idx + length expansion)
                (abbreviated_text ++ abbreviation)
                (replacements ++ [(abbreviation, expansion)])
            else
              c ← lift (getitem snippet snippet_idx);
              abbreviate_loop fuel' snippet abbreviation_rate index_to_pairs
                (snippet_idx + 1) (abbreviated_text ++ [c]) replacements
        | None =>
            c ← lift (getitem snippet snippet_idx);
            abbreviate_loop fuel' snippet abbreviation_rate index_to_pairs
              (snippet_idx + 1) (abbreviated_text ++ [c]) replacements
        end
      else mret (abbreviated_text, replacements)
  end.

Definition _abbreviate_snippet (fuel : nat) (snippet : str)
    (index_to_pairs : gmap nat (list (str * str))) (abbreviation_rate : Q)
    : rand (str * list (str * str)) :=
  abbreviate_loop fuel snippet abbreviation_rate index_to_pairs 0 [] [].

(** The records the generator yields, in order. *)
Definition reverse_substitution (fuel : nat) (extracted_snippet : str * str)
    (abbreviation_rate : Q) (abbreviation_expansions_dict : dictionary)
    : rand (list ((str * str) * (str * WSRSFeatures))) :=
  let '(key, snippet) := extracted_snippet in
  snippet_idx_to_pairs ←
    lift (_extract_abbreviation_expansion_pairs snippet
            abbreviation_expansions_dict);
  result ←
    (if bool_decide (snippet_idx_to_pairs ≠ ∅) then
       _abbreviate_snippet fuel snippet snippet_idx_to_pairs abbreviation_rate
     else mret (snippet, []));
  let '(abbreviated_snippet, replacements) := result in
  if length (split space abbreviated_snippet) <? 3 then mret []
  else
    let features := {| original_snippet := snippet;
                       abbreviated_snippet := abbreviated_snippet |} in
    mret ((match replacements with
           | [] => [(([], []), (key, features))]
           | _ => []
           end)
          ++ ((λ replacement, (replacement, (key, features)))
              <$> replacements)).

(** The abbreviated snippet and the replacements that
    [reverse_substitution] computes before it filters and yields. *)
Definition substitute (fuel : nat) (snippet : str) (abbreviation_rate : Q)
    (abbreviation_expansions_dict : dictionary)
    : rand (str * list (str * str)) :=
  snippet_idx_to_pairs ←
    lift (_extract_abbreviation_expansion_pairs snippet
            abbreviation_expansions_dict);
  if bool_decide (snippet_idx_to_pairs ≠ ∅) then
    _abbreviate_snippet fuel snippet snippet_idx_to_pairs abbreviation_rate
  else mret (snippet, []).

(** The loop of [sample_snippets_by_replacement], entered with the
    limit that remains. *)
Fixpoint sample_loop (snippets : list (str * WSRSFeatures)) (limit : Z)
    : list (str * WSRSFeatures) :=
  match snippets with
  | [] => []
  | (key, features) :: rest =>
      (key, features)
      :: (if (limit - 1 <=? 0)%Z then [] else sample_loop rest (limit - 1))
  end.

Definition sample_snippets_by_replacement
    (snippets_by_replacement : (str * str) * list (str * WSRSFeatures))
    (num_snippets_per_replacement : Z) : list (str * WSRSFeatures) :=
  let limit := num_snippets_per_replacement in
  if (limit =? 0)%Z then []
  else sample_loop (snippets_by_replacement.2) limit.

(** The reading of "whitespace-delimited tokens" in the design document:
    the maximal runs of characters that are not whitespace, which is
    what [str.split()] without a separator returns. *)
Definition is_whitespace (c : char) : bool :=
  bool_decide (c ∈ [9; 10; 11; 12; 13; 32]%N).

Fixpoint whitespace_tokens_from (current s : str) : list str :=
  match s with
  | [] => match current with [] => [] | _ => [current] end
  | c :: s' =>
      if is_whitespace c then
        match current with
        | [] => whitespace_tokens_from [] s'
        | _ => current :: whitespace_tokens_from [] s'
        end
      else whitespace_tokens_from (current ++ [c]) s'
  end.

Definition whitespace_tokens (s : str) : list str :=
  whitespace_tokens_from [] s.

(** ** c4_wsrs.py *)

(** A [dict] keyed by strings, as its items in insertion order. *)
Fixpoint dict_get {V} (d : list (str * V)) (k : str) : option V :=
  match d with
  | [] => None
  | (k', v) :: d' => if bool_decide (k' = k) then Some v else dict_get d' k
  end.

(** [d[k] = v]: a present key keeps its place, a new one goes last. *)
Fixpoint dict_set {V} (d : list (str * V)) (k : str) (v : V)
    : list (str * V) :=
  match d with
  | [] => [(k, v)]
  | (k', v') :: d' =>
      if bool_decide (k' = k) then (k', v) :: d'
      else (k', v') :: dict_set d' k v
  end.

(** One turn of the loop of [_convert_abbrev_expansion_table_to_dict]. *)
Definition convert_row (abbreviation_expansions : dictionary)
    (row_tuple : str * str) : dictionary :=
  let '(abbreviation, expansion) := row_tuple in
  let abbreviation_expansions :=
    match dict_get abbreviation_expansions abbreviation with
    | None => dict_set abbreviation_expansions abbreviation []
    | Some _ => abbreviation_expansions
    end in
  match dict_get abbreviation_expansions abbreviation with
  | Some expansions =>
      if bool_decide (expansion ∈ expansions) then abbreviation_expansions
      else dict_set abbreviation_expansions abbreviation
             (expansions ++ [expansion])
  | None => abbreviation_expansions (* the key was set just above *)
  end.

(** The rows of the data frame are its (abbreviation, expansion) pairs. *)
Definition _convert_abbrev_expansion_table_to_dict (df : list (str * str))
    : dictionary :=
  foldl convert_row [] df.

(** [abbrev, exp = row] *)
Definition unpack_pair (row : list str) : outcome (str * str) :=
  match row with
  | [abbrev; exp] => Ret (abbrev, exp)
  | _ => Raise ValueError
  end.

(** [d[abbrev].append(exp)] on a [collections.defaultdict(list)]. *)
Definition defaultdict_append (d : dictionary) (abbrev exp : str)
    : dictionary :=
  match dict_get d abbrev with
  | Some expansions => dict_set d abbrev (expansions ++ [exp])
  | None => dict_set (dict_set d abbrev []) abbrev ([] ++ [exp])
  end.

(** The dictionary [C4WSRS._split_generators] builds from the rows that
    [csv.reader] gives, each a list of fields. *)
Fixpoint read_rows (abbreviation_expansions_dict : dictionary)
    (reader : list (list str)) : outcome dictionary :=
  match reader with
  | [] => Ret abbreviation_expansions_dict
  | row :: reader' =>
      '(abbrev, exp) ← unpack_pair row;
      read_rows (defaultdict_append abbreviation_expansions_dict abbrev exp)
        reader'
  end.

Definition _split_generators_dict (reader : list (list str))
    : outcome dictionary :=
  read_rows [] reader.

Section Config.

(** [tfds.core.BuilderConfig] is outside the module: its constructor is
    taken as given, with the keyword arguments it receives. *)
Context {kwargs BuilderConfig : Type}.
Variable super_init : str → kwargs → outcome BuilderConfig.

Record C4WSRSConfig : Type := {
  builder_config : BuilderConfig;
  max_sentences_per_snippet : Z;
  abbreviation_rate : Q;
  num_snippets_per_replacement : Z;
}.

Definition C4WSRSConfig_init (name : str) (max_sentences_per_snippet : Z)
    (abbreviation_rate : Q) (num_snippets_per_replacement : Z)
    (more : kwargs) : outcome C4WSRSConfig :=
  self ← super_init name more;
  Ret {| builder_config := self;
         max_sentences_per_snippet := max_sentences_per_snippet;
         abbreviation_rate := abbreviation_rate;
         num_snippets_per_replacement := num_snippets_per_replacement |}.

End Config.

(** ** Invariants of the run *)

(** Every entry of a match map lists candidates of the dictionary, at
    least one, whose expansion is the text at that index. *)
Definition matches_of (snippet : str) (d : dictionary)
    (index_to_pairs : gmap nat (list (str * str))) : Prop :=
  ∀ i pairs, index_to_pairs !! i = Some pairs →
    pairs ≠ []
    ∧ ∀ abbreviation expansion, (abbreviation, expansion) ∈ pairs →
        (abbreviation, expansion) ∈ _get_dictionary_pairs d
        ∧ slice snippet i (i + length expansion) = expansion.

(** Two generators that shuffle alike and whose uniform draws compare
    alike with the rate. *)
Definition same_decisions (rate : Q) (g1 g2 : rng) : Prop :=
  (∀ k, py_random g1 k = py_random g2 k)
  ∧ (∀ k, Qltb (np_random g1 k) rate = Qltb (np_random g2 k) rate).

(** A generator with the uniform draws replaced. *)
Definition with_uniform (g : rng) (u : nat → Q) : rng :=
  {| py_random := py_random g; np_random := u |}.

(** The inputs of the module's tests, and three more. *)
Definition test_key : str := py "url=test/url.com,snippet_id=0".
Definition test_snippet : str := py "the patient is in the emergency room.".
Definition test_dictionary : dictionary :=
  [(py "pt", [py "patient"]); (py "er", [py "emergency room"])].
Definition tabbed_snippet : str := [97; 9; 98; 9; 99]%N.
Definition three_records : list (str * WSRSFeatures) :=
  (λ k, (py k, {| original_snippet := test_snippet;
                  abbreviated_snippet := py "the pt is in the er." |}))
  <$> ["a"; "b"; "c"]%string.
Definition repeated_rows : list (list str) :=
  [[py "pt"; py "patient"]; [py "pt"; py "patient"]].

(** A generator whose first uniform draw is 0 and whose every later
    one is 1/2. *)
Definition first_draw_rng : rng :=
  {| py_random := λ _, 0;
     np_random := λ k, match k with 0 => 0%Q | S _ => (1 # 2)%Q end |}.

(** A generator whose every uniform draw is [u]. *)
Definition constant_rng (u : Q) : rng :=
  {| py_random := λ _, 0; np_random := λ _, u |}.

(** ** Views of a run *)

(** The matcher as a test: it accepts, and neither refuses nor raises. *)
Definition accepts (snippet word : str) (index : nat) : bool :=
  match _snippet_contains_word_at_index snippet word index with
  | Ret true => true
  | _ => false
  end.

(** The candidates of the dictionary that the matcher accepts at an
    index, in dictionary order. *)
Definition candidates_at (snippet : str) (d : dictionary) (index : nat)
    : list (str * str) :=
  filter (λ pair, accepts snippet pair.2 index) (_get_dictionary_pairs d).

(** Every entry of a match map is inside the snippet and lists
    candidates of the dictionary, at least one, that the matcher accepts
    there. *)
Definition accepted_of (snippet : str) (d : dictionary)
    (index_to_pairs : gmap nat (list (str * str))) : Prop :=
  ∀ i pairs, index_to_pairs !! i = Some pairs →
    i < length snippet
    ∧ pairs ≠ []
    ∧ ∀ abbreviation expansion, (abbreviation, expansion) ∈ pairs →
        (abbreviation, expansion) ∈ _get_dictionary_pairs d
        ∧ accepts snippet expansion i = true.

(** A text as the stretches that were copied and the pairs that were
    replaced after each, then the stretch copied last; [side] picks what
    stands for a pair, its abbreviation or its expansion. *)
Definition assemble (side : str * str → str)
    (segments : list (str * (str * str))) (rest : str) : str :=
  concat ((λ segment, segment.1 ++ side segment.2) <$> segments) ++ rest.

(** ** Views of a dictionary *)

(** The expansions that the rows give for an abbreviation, in row
    order. *)
Definition expansions_for (abbreviation : str) (rows : list (str * str))
    : list str :=
  (filter (λ row, row.1 = abbreviation) rows).*2.

(** The first occurrence of each element, in order. *)
Fixpoint first_occurrences (l : list str) : list str :=
  match l with
  | [] => []
  | x :: l' => x :: filter (λ y, y ≠ x) (first_occurrences l')
  end.

(** [l.append(x)] unless [x in l]. *)
Definition add_absent (l : list str) (x : str) : list str :=
  if bool_decide (x ∈ l) then l else l ++ [x].

(** A row of the file with its two fields. *)
Definition fields (row : str * str) : list str := [row.1; row.2].

(** ** c4_wsrs_utils.py: the extraction of snippets *)

(** [sep.join(pieces)] *)
Fixpoint join (sep : str) (pieces : list str) : str :=
  match pieces with
  | [] => []
  | [piece] => piece
  | piece :: pieces' => piece ++ sep ++ join sep pieces'
  end.

(** [s.split(sep)] for a separator that is not empty: the text is cut
    at each occurrence of [sep] met from the left, occurrences that
    overlap an earlier cut apart. [skip] counts the characters of the
    separator still to pass and [current] is the piece being read. *)
Fixpoint split_on_from (sep : str) (skip : nat) (current s : str)
    : list str :=
  match s with
  | [] => [current]
  | c :: s' =>
      match skip with
      | S skip' => split_on_from sep skip' current s'
      | 0 =>
          if bool_decide (take (length sep) s = sep) then
            current :: split_on_from sep (length sep - 1) [] s'
          else split_on_from sep 0 (current ++ [c]) s'
      end
  end.

Definition split_on (sep s : str) : list str := split_on_from sep 0 [] s.

(** [s.endswith('.')] *)
Definition endswith_period (s : str) : bool :=
  bool_decide (last s = Some 46%N).

(** [str(n)] for [n >= 0], as an f-string writes it. *)
Definition decimal (n : nat) : str :=
  py (NilEmpty.string_of_uint (Nat.to_uint n)).

(** The generator of [numpy.random], as the integers and the uniform
    values it is going to hand out. *)
Record np_rng : Type := {
  np_integers : nat → nat;
  np_uniforms : nat → Q;
}.

(** [np.random.randint(low, high)]: a 64-bit integer from [low] up to
    [high], [high] left out; [ValueError] when there is none. *)
Definition randint (low high : Z) (g : np_rng) : outcome (Z * np_rng) :=
  if ((high <=? low) || (low <? - 2 ^ 63) || (2 ^ 63 <? high))%Z then
    Raise ValueError
  else
    Ret ((low + Z.of_nat (np_integers g 0) mod (high - low))%Z,
         {| np_integers := tail (np_integers g);
            np_uniforms := np_uniforms g |}).

(** [np.random.uniform()] *)
Definition np_uniform (g : np_rng) : Q * np_rng :=
  (np_uniforms g 0,
   {| np_integers := np_integers g; np_uniforms := tail (np_uniforms g) |}).

Section Extraction.

(** [bytes.decode()], [str.lower()] and the whitespace of Unicode
    beyond ASCII belong to the Python runtime and are taken as given;
    a byte string that does not decode raises a [ValueError]. *)
Context {bytes : Type}.
Variable decode : bytes → outcome str.
Variable lower : str → str.
Variable unicode_isspace : char → bool.

(** A document of C4, with the two fields the code reads. *)
Record c4_doc : Type := {
  doc_url : bytes;
  doc_text : bytes;
}.

Definition isspace (c : char) : bool :=
  if (c <? 128)%N then
    bool_decide (c ∈ [9; 10; 11; 12; 13; 28; 29; 30; 31; 32]%N)
  else unicode_isspace c.

Fixpoint lstrip (s : str) : str :=
  match s with
  | [] => []
  | c :: s' => if isspace c then lstrip s' else s
  end.

(** [s.strip()] *)
Definition strip (s : str) : str := reverse (lstrip (reverse (lstrip s))).

(** The key of the snippet numbered [snippet_id]. *)
Definition snippet_key (url : str) (snippet_id : nat) : str :=
  py "url=" ++ url ++ py ",snippet_id=" ++ decimal snippet_id.

(** The loop of [extract_snippets], with the pairs it yields in order.
    It raises, if it does, in its first turn, before it has yielded. *)
Fixpoint snippets_loop (fuel : nat) (url : bytes)
    (max_sentences_per_snippet : Z) (sentences : list str)
    (sentence_idx snippet_id : nat) (g : np_rng)
    : outcome (list (str * str)) :=
  match fuel with
  | 0 => OutOfFuel
  | S fuel' =>
      if sentence_idx <? length sentences then
        drawn ← randint 1 (max_sentences_per_snippet + 1) g;
        let '(num_sentences_sampled, g) := drawn in
        let num_sentences_sampled := Z.to_nat num_sentences_sampled in
        let snippet :=
          join (py ". ")
            (take num_sentences_sampled (drop sentence_idx sentences)) in
        let '(snippet, g) :=
          if endswith_period snippet then (snippet, g)
          else
            let '(u, g) := np_uniform g in
            if Qltb u (1 # 2) then (snippet ++ py ".", g) else (snippet, g) in
        url_text ← decode url;
        let key := snippet_key url_text snippet_id in
        let snippet := strip (lower snippet) in
        rest ← snippets_loop fuel' url max_sentences_per_snippet sentences
                 (sentence_idx + num_sentences_sampled) (snippet_id + 1) g;
        Ret (if 1024 <? length snippet then rest else (key, snippet) :: rest)
      else Ret []
  end.

Definition extract_snippets (fuel : nat) (doc : c4_doc)
    (max_sentences_per_snippet : Z) (g : np_rng)
    : outcome (list (str * str)) :=
  text ← decode (doc_text doc);
  let text := (λ c, if bool_decide (c = 10%N) then space else c) <$> text in
  let sentences := split_on (py ". ") text in
  snippets_loop fuel (doc_url doc) max_sentences_per_snippet sentences 0 0 g.

End Extraction.

(** [str.lower()] on ASCII text. *)
Definition ascii_lower (s : str) : str :=
  (λ c, if ((65 <=? c) && (c <=? 90))%N then (c + 32)%N else c) <$> s.

(** The document of the module's test, its bytes being ASCII, and a
    generator whose every integer is 0 and whose every uniform draw is
    [u]. *)
Definition test_doc : c4_doc :=
  {| doc_url := py "test/url.com";
     doc_text := py "this is a snippet. it has two parts." |}.
Definition constant_np_rng (u : Q) : np_rng :=
  {| np_integers := λ _, 0; np_uniforms := λ _, u |}.

(** The sentences [extract_snippets] cuts a decoded text into. *)
Definition sentences_of (text : str) : list str :=
  split_on (py ". ")
    ((λ c, if bool_decide (c = 10%N) then space else c) <$> text).

(** A text with no whitespace at either end. *)
Definition stripped (unicode_isspace : char → bool) (s : str) : Prop :=
  (∀ c, head s = Some c → isspace unicode_isspace c = false)
  ∧ (∀ c, last s = Some c → isspace unicode_isspace c = false).

(** What the module's test expects of the extraction, and the records
    of the test snippet at rate 0. *)
Definition test_snippets : list (str * str) :=
  [(py "url=test/url.com,snippet_id=0", py "this is a snippet.");
   (py "url=test/url.com,snippet_id=1", py "it has two parts.")].
Definition sentinel_records : list ((str * str) * (str * WSRSFeatures)) :=
  [(([], []), (test_key, {| original_snippet := test_snippet;
                            abbreviated_snippet := test_snippet |}))].
Definition test_replacements : list (str * str) :=
  [(py "pt", py "patient"); (py "er", py "emergency room")].

(** * Properties *)

(** ** Drawing *)

Lemma rand_bind_Ret {A B} (m : rand A) (k : A → rand B) g a g' :
  m g = Ret (a, g') → (m ≫= k) g = k a g'.
Proof. unfold mbind, rand_bind. by intros ->. Qed.

Lemma lift_Ret {A B} (a : A) (k : A → rand B) g :
  (lift (Ret a) ≫= k) g = k a g.
Proof. done. Qed.

Lemma swap_Permutation {A} (x : list A) i j : swap x i j ≡ₚ x.
Proof.
  unfold swap.
  destruct (x !! i) as [a|] eqn:Hi; [|done].
  destruct (x !! j) as [b|] eqn:Hj; [|done].
  by apply Permutation_insert_swap.
Qed.

Lemma shuffle_loop_S {A} i (x : list A) g :
  shuffle_loop (S i) x g
  = shuffle_loop i (swap x (S i) (py_random g 0 mod S (S i)))
      {| py_random := tail (py_random g); np_random := np_random g |}.
Proof. done. Qed.

(** A shuffle permutes the list and leaves the uniform draws alone. *)
Lemma shuffle_loop_spec {A} i (x : list A) g :
  ∃ x' g', shuffle_loop i x g = Ret (x', g')
           ∧ x' ≡ₚ x ∧ np_random g' = np_random g.
Proof.
  revert x g. induction i as [|i IH]; intros x g.
  - by exists x, g.
  - rewrite shuffle_loop_S.
    edestruct IH as (x' & g' & -> & Hperm & Hnp).
    exists x', g'. split; [done|]. split; [|done].
    by rewrite Hperm, swap_Permutation.
Qed.

Lemma shuffle_spec {A} (x : list A) g :
  ∃ x' g', shuffle x g = Ret (x', g') ∧ x' ≡ₚ x ∧ np_random g' = np_random g.
Proof. apply shuffle_loop_spec. Qed.

Lemma shuffle_loop_same_decisions {A} rate i (x : list A) g1 g2 :
  same_decisions rate g1 g2 →
  ∃ x' g1' g2', shuffle_loop i x g1 = Ret (x', g1')
                ∧ shuffle_loop i x g2 = Ret (x', g2')
                ∧ same_decisions rate g1' g2'.
Proof.
  revert x g1 g2. induction i as [|i IH]; intros x g1 g2 Hsame.
  - by exists x, g1, g2.
  - rewrite !shuffle_loop_S.
    destruct Hsame as [Hpy Hnp]. rewrite <-(Hpy 0).
    apply IH. split; intros k; [apply (Hpy (S k))|apply Hnp].
Qed.

(** ** The word-boundary matcher *)

Lemma getitem_Some {A} (l : list A) i a :
  l !! i = Some a → getitem l i = Ret a.
Proof. unfold getitem. by intros ->. Qed.

Lemma getitem_None {A} (l : list A) i :
  l !! i = None → getitem l i = Raise IndexError.
Proof. unfold getitem. by intros ->. Qed.

Lemma slice_eq_length (s w : str) i :
  slice s i (i + length w) = w → i + length w ≤ length s ∨ w = [].
Proof.
  unfold slice. intros Heq.
  destruct w as [|c w]; [by right|left].
  apply (f_equal length) in Heq.
  rewrite length_take, length_drop in Heq. simpl in *. lia.
Qed.

(** The test on the character after the word, as the matcher ends. *)
Lemma right_boundary_iff (s : str) (k : nat) :
  k ≤ length s →
  (glued_right ← and_then (k <? length s)
                   (c ← getitem s k; Ret (isalnum c));
   if glued_right : bool then Ret false else Ret true) = Ret true
  ↔ (k = length s ∨ ∃ c, s !! k = Some c ∧ isalnum c = false).
Proof.
  intros Hk. unfold and_then, getitem.
  destruct (Nat.ltb_spec k (length s)) as [Hlt|Hge]; simpl.
  - destruct (lookup_lt_is_Some_2 _ _ Hlt) as [c Hc]. rewrite Hc. simpl.
    destruct (isalnum c) eqn:Hal; split; try done.
    + intros [?|(c' & ? & ?)]; [lia|congruence].
    + intros _. right. by exists c.
  - split; [intros _; left; lia|done].
Qed.

(** C1: the matcher accepts a word at an index exactly when the text
    there is the word, the character before (if any) is not
    alphanumeric, the word does not follow an apostrophe that follows an
    alphanumeric character, and the character after (if any) is not
    alphanumeric; so on the test snippet "patient" is found at 5, and
    neither "s" at 13 nor "fam" at 15. *)
Theorem matcher_accepts_iff_boundaries :
  (∀ (s w : str) (i : nat),
     _snippet_contains_word_at_index s w i = Ret true ↔
       slice s i (i + length w) = w
       ∧ (i = 0 ∨ ∃ c, s !! (i - 1) = Some c ∧ isalnum c = false)
       ∧ ¬ (i > 1 ∧ s !! (i - 1) = Some apostrophe
            ∧ ∃ c, s !! (i - 2) = Some c ∧ isalnum c = true)
       ∧ (i + length w = length s
          ∨ ∃ c, s !! (i + length w) = Some c ∧ isalnum c = false))
  ∧ (let s := py "the -patient's family is in the emergency room." in
     _snippet_contains_word_at_index s (py "patient") 5 = Ret true
     ∧ _snippet_contains_word_at_index s (py "s") 13 = Ret false
     ∧ _snippet_contains_word_at_index s (py "fam") 15 = Ret false).
Proof.
  split; [|by vm_compute].
  intros s w i. unfold _snippet_contains_word_at_index.
  case_bool_decide as Hslice; simpl; [|by intuition].
  pose proof (slice_eq_length _ _ _ Hslice) as Hlen.
  destruct i as [|i].
  { (* at the start of the snippet nothing is on the left *)
    simpl. rewrite right_boundary_iff by (destruct Hlen as [?| ->]; simpl; lia).
    split; [intros Hr; split_and!; auto; lia|by intros (_ & _ & _ & Hr)]. }
  replace (0 <? S i) with true by done. replace (S i - 1) with i by lia.
  cbn [and_then].
  destruct (s !! i) as [c|] eqn:Hc.
  2:{ rewrite (getitem_None _ _ Hc). cbn [mbind outcome_bind].
      split; [done|]. intros (_ & [?|(c & ? & _)] & _); [lia|done]. }
  rewrite (getitem_Some _ _ _ Hc). cbn [mbind outcome_bind].
  destruct (isalnum c) eqn:Hal.
  { split; [done|]. intros (_ & [?|(c' & ? & ?)] & _); [lia|congruence]. }
  assert (Hk : S i + length w ≤ length s).
  { destruct Hlen as [?| ->]; [done|]. apply lookup_lt_Some in Hc. simpl. lia. }
  destruct i as [|i].
  { (* one character on the left *)
    change (1 <? 1) with false. cbn [and_then mbind outcome_bind].
    rewrite right_boundary_iff by done.
    split.
    - intros Hr. split_and!; eauto; lia.
    - by intros (_ & _ & _ & Hr). }
  replace (1 <? S (S i)) with true by done.
  replace (S (S i) - 2) with i by lia.
  cbn [and_then mbind outcome_bind].
  case_bool_decide as Hap; cbn [and_then mbind outcome_bind].
  - subst c.
    destruct (s !! i) as [c'|] eqn:Hc'.
    2:{ apply lookup_ge_None in Hc'. apply lookup_lt_Some in Hc. lia. }
    rewrite (getitem_Some _ _ _ Hc'). cbn [mbind outcome_bind].
    destruct (isalnum c') eqn:Hal'.
    + split; [done|]. intros (_ & _ & Hno & _). destruct Hno.
      split_and!; [lia|done|by exists c'].
    + rewrite right_boundary_iff by done.
      split.
      * intros Hr. split_and!; eauto.
        intros (_ & _ & c'' & ? & ?). congruence.
      * by intros (_ & _ & _ & Hr).
  - rewrite right_boundary_iff by done.
    split.
    + intros Hr. split_and!; eauto.
      intros (_ & ? & _). congruence.
    + by intros (_ & _ & _ & Hr).
Qed.

(** ** The scan for candidates *)

Lemma matcher_true_slice (s w : str) i :
  _snippet_contains_word_at_index s w i = Ret true →
  slice s i (i + length w) = w.
Proof.
  unfold _snippet_contains_word_at_index.
  by case_bool_decide.
Qed.

(** Inside the snippet, and at its end, the matcher raises nothing. *)
Lemma matcher_in_range (s w : str) i :
  i ≤ length s → ∃ b, _snippet_contains_word_at_index s w i = Ret b.
Proof.
  intros Hi. unfold _snippet_contains_word_at_index.
  case_bool_decide as Hslice; simpl; [|by eexists].
  assert (Hright : ∃ b,
    (glued_right ← and_then (i + length w <? length s)
                     (c ← getitem s (i + length w); Ret (isalnum c));
     if glued_right : bool then Ret false else Ret true) = Ret b).
  { unfold and_then.
    destruct (Nat.ltb_spec (i + length w) (length s)) as [Hlt|_]; [|by eexists].
    destruct (lookup_lt_is_Some_2 _ _ Hlt) as [c Hc].
    rewrite (getitem_Some _ _ _ Hc). cbn [mbind outcome_bind].
    destruct (isalnum c); by eexists. }
  destruct i as [|i]; [done|].
  replace (0 <? S i) with true by done. replace (S i - 1) with i by lia.
  destruct (lookup_lt_is_Some_2 s i) as [c Hc]; [lia|].
  rewrite (getitem_Some _ _ _ Hc). cbn [and_then mbind outcome_bind].
  destruct (isalnum c); [by eexists|].
  destruct i as [|i]; [done|].
  replace (1 <? S (S i)) with true by done.
  replace (S (S i) - 2) with i by lia.
  cbn [and_then mbind outcome_bind].
  case_bool_decide; cbn [and_then mbind outcome_bind]; [|done].
  destruct (lookup_lt_is_Some_2 s i) as [c' Hc']; [lia|].
  rewrite (getitem_Some _ _ _ Hc'). cbn [mbind outcome_bind].
  destruct (isalnum c'); [by eexists|done].
Qed.

Lemma matching_pairs_spec (s : str) candidates i :
  i ≤ length s →
  ∃ pairs, matching_pairs s candidates i = Ret pairs
    ∧ ∀ a e, (a, e) ∈ pairs →
        (a, e) ∈ candidates ∧ slice s i (i + length e) = e.
Proof.
  intros Hi. induction candidates as [|[a e] rest IH].
  - exists []. split; [done|]. intros ?? ?%elem_of_nil. done.
  - destruct IH as (pairs & Hrun & Hpairs).
    destruct (matcher_in_range s e i Hi) as [found Hfound].
    cbn [matching_pairs]. rewrite Hfound, Hrun. cbn [mbind outcome_bind].
    eexists. split; [done|].
    intros a' e' Hin.
    destruct found.
    + apply elem_of_cons in Hin as [[= -> ->]|Hin].
      * split; [left|]. by apply matcher_true_slice.
      * destruct (Hpairs _ _ Hin). split; [by right|done].
    + destruct (Hpairs _ _ Hin). split; [by right|done].
Qed.

Lemma matches_of_empty (s : str) d : matches_of s d ∅.
Proof. intros i pairs. by rewrite lookup_empty. Qed.

Lemma matches_of_insert (s : str) d m i pairs :
  matches_of s d m →
  pairs ≠ [] →
  (∀ a e, (a, e) ∈ pairs →
     (a, e) ∈ _get_dictionary_pairs d ∧ slice s i (i + length e) = e) →
  matches_of s d (<[i := pairs]> m).
Proof.
  intros Hm Hne Hpairs j pairs'.
  destruct (decide (i = j)) as [->|Hij].
  - rewrite lookup_insert_eq. by intros [= <-].
  - rewrite lookup_insert_ne by done. apply Hm.
Qed.

Lemma extract_loop_spec (s : str) d todo idx m :
  idx + todo ≤ length s →
  matches_of s d m →
  ∃ m', extract_loop s d todo idx m = Ret m' ∧ matches_of s d m'.
Proof.
  revert idx m. induction todo as [|todo IH]; intros idx m Hidx Hm.
  - by exists m.
  - destruct (matching_pairs_spec s (_get_dictionary_pairs d) idx)
      as (pairs & Hrun & Hpairs); [lia|].
    cbn [extract_loop]. rewrite Hrun. cbn [mbind outcome_bind].
    apply IH; [lia|].
    destruct pairs as [|pair pairs]; [done|].
    by apply matches_of_insert.
Qed.

(** The scan ends, raises nothing, and finds only true occurrences. *)
Lemma extract_spec (s : str) d :
  ∃ m, _extract_abbreviation_expansion_pairs s d = Ret m ∧ matches_of s d m.
Proof. apply extract_loop_spec; [done|apply matches_of_empty]. Qed.

(** ** The substitution loop *)

Lemma abbreviate_loop_S fuel (s : str) rate m idx text repl :
  abbreviate_loop (S fuel) s rate m idx text repl
  = if idx <? length s then
      match m !! idx with
      | Some pairs_and_counts =>
          shuffled ← shuffle pairs_and_counts;
          first ← lift (getitem shuffled 0);
          let '(abbreviation, expansion) := first in
          u ← uniform;
          if Qltb u rate then
            abbreviate_loop fuel s rate (<[idx := shuffled]> m)
              (idx + length expansion) (text ++ abbreviation)
              (repl ++ [(abbreviation, expansion)])
          else
            c ← lift (getitem s idx);
            abbreviate_loop fuel s rate (<[idx := shuffled]> m)
              (idx + 1) (text ++ [c]) repl
      | None =>
          c ← lift (getitem s idx);
          abbreviate_loop fuel s rate m (idx + 1) (text ++ [c]) repl
      end
    else mret (text, repl).
Proof. done. Qed.

Lemma abbreviate_loop_exit fuel (s : str) rate m idx text repl g :
  length s ≤ idx →
  abbreviate_loop (S fuel) s rate m idx text repl g = Ret ((text, repl), g).
Proof.
  intros Hidx. rewrite abbreviate_loop_S.
  by destruct (Nat.ltb_spec idx (length s)); [lia|].
Qed.

(** One turn inside the snippet, on a map of true occurrences: it copies
    a character, or it abbreviates an expansion that stands at the
    cursor, as the uniform draw decides; it raises nothing. *)
Lemma abbreviate_loop_step fuel (s : str) d rate m idx text repl g :
  matches_of s d m →
  idx < length s →
  ∃ c, s !! idx = Some c ∧
    ((m !! idx = None
      ∧ abbreviate_loop (S fuel) s rate m idx text repl g
        = abbreviate_loop fuel s rate m (idx + 1) (text ++ [c]) repl g)
     ∨ ∃ m' g' a e,
         matches_of s d m'
         ∧ (a, e) ∈ _get_dictionary_pairs d
         ∧ slice s idx (idx + length e) = e
         ∧ np_random g' = tail (np_random g)
         ∧ abbreviate_loop (S fuel) s rate m idx text repl g
           = if Qltb (np_random g 0) rate then
               abbreviate_loop fuel s rate m' (idx + length e) (text ++ a)
                 (repl ++ [(a, e)]) g'
             else
               abbreviate_loop fuel s rate m' (idx + 1) (text ++ [c]) repl g').
Proof.
  intros Hm Hidx.
  destruct (lookup_lt_is_Some_2 s idx Hidx) as [c Hc].
  exists c. split; [done|].
  rewrite abbreviate_loop_S.
  destruct (Nat.ltb_spec idx (length s)) as [_|?]; [|lia].
  destruct (m !! idx) as [pairs|] eqn:Hpairs.
  - right. destruct (Hm _ _ Hpairs) as [Hne Hall].
    destruct (shuffle_spec pairs g) as (shuffled & g1 & Hsh & Hperm & Hnp).
    rewrite (rand_bind_Ret _ _ _ _ _ Hsh).
    destruct shuffled as [|[a e] shuffled].
    { by apply Permutation_nil in Hperm. }
    change (getitem ((a, e) :: shuffled) 0) with (Ret (a, e)).
    rewrite lift_Ret.
    erewrite (rand_bind_Ret uniform) by reflexivity.
    rewrite (getitem_Some _ _ _ Hc), Hnp.
    exists (<[idx := (a, e) :: shuffled]> m),
      {| py_random := py_random g1; np_random := tail (np_random g) |}, a, e.
    assert (Hin : ∀ a' e', (a', e') ∈ (a, e) :: shuffled →
              (a', e') ∈ _get_dictionary_pairs d
              ∧ slice s idx (idx + length e') = e').
    { intros a' e' Hin. apply Hall. by rewrite <-Hperm. }
    split_and!.
    + by apply matches_of_insert.
    + apply (Hin a e). left.
    + apply (Hin a e). left.
    + done.
    + by destruct (Qltb (np_random g 0) rate).
  - left. split; [done|]. by rewrite (getitem_Some _ _ _ Hc).
Qed.

Lemma slice_fits (s e : str) idx :
  idx ≤ length s → slice s idx (idx + length e) = e → idx + length e ≤ length s.
Proof.
  unfold slice. intros Hidx Heq. apply (f_equal length) in Heq.
  rewrite length_take, length_drop in Heq. lia.
Qed.

(** When no abbreviation is longer than its expansion, the text written
    so far is never longer than the text read so far. *)
Lemma abbreviate_loop_length fuel (s : str) d rate m idx text repl g r g' :
  matches_of s d m →
  (∀ a e, (a, e) ∈ _get_dictionary_pairs d → length a ≤ length e) →
  idx ≤ length s →
  length text ≤ idx →
  abbreviate_loop fuel s rate m idx text repl g = Ret (r, g') →
  length r.1 ≤ length s.
Proof.
  intros Hm Hshort. revert m idx text repl g Hm.
  induction fuel as [|fuel IH]; intros m idx text repl g Hm Hidx Htext Hrun;
    [done|].
  destruct (decide (idx < length s)) as [Hlt|Hge].
  - destruct (abbreviate_loop_step fuel s d rate m idx text repl g Hm Hlt)
      as (c & Hc & [[_ Hstep]|(m' & g1 & a & e & Hm' & Hin & Hsl & _ & Hstep)]);
      rewrite Hstep in Hrun.
    + eapply IH; [done| | |done]; [lia|]. rewrite length_app. simpl. lia.
    + pose proof (slice_fits s e idx Hidx Hsl). pose proof (Hshort a e Hin).
      destruct (Qltb (np_random g 0) rate).
      * eapply IH; [done| | |done]; [lia|]. rewrite length_app. lia.
      * eapply IH; [done| | |done]; [lia|]. rewrite length_app. simpl. lia.
  - rewrite abbreviate_loop_exit in Hrun by lia.
    injection Hrun as <- _. simpl. lia.
Qed.

(** When no expansion is empty, every turn advances. *)
Lemma abbreviate_loop_terminates fuel (s : str) d rate m idx text repl g :
  matches_of s d m →
  (∀ a e, (a, e) ∈ _get_dictionary_pairs d → e ≠ []) →
  length s - idx < fuel →
  ∃ r g', abbreviate_loop fuel s rate m idx text repl g = Ret (r, g').
Proof.
  intros Hm Hfull. revert m idx text repl g Hm.
  induction fuel as [|fuel IH]; intros m idx text repl g Hm Hfuel; [lia|].
  destruct (decide (idx < length s)) as [Hlt|Hge].
  - destruct (abbreviate_loop_step fuel s d rate m idx text repl g Hm Hlt)
      as (c & Hc & [[_ Hstep]|(m' & g1 & a & e & Hm' & Hin & Hsl & _ & Hstep)]);
      rewrite Hstep.
    + apply IH; [done|lia].
    + assert (0 < length e).
      { specialize (Hfull a e Hin). destruct e; [done|simpl; lia]. }
      destruct (Qltb (np_random g 0) rate); (apply IH; [done|lia]).
  - rewrite abbreviate_loop_exit by lia. by eexists _, _.
Qed.

(** When no uniform draw is below the rate, the loop copies the rest of
    the snippet and abbreviates nothing. *)
Lemma abbreviate_loop_copies fuel (s : str) d rate m idx text repl g :
  matches_of s d m →
  (∀ k, Qltb (np_random g k) rate = false) →
  length s - idx < fuel →
  ∃ g', abbreviate_loop fuel s rate m idx text repl g
        = Ret ((text ++ drop idx s, repl), g').
Proof.
  revert m idx text repl g.
  induction fuel as [|fuel IH]; intros m idx text repl g Hm Hnever Hfuel;
    [lia|].
  destruct (decide (idx < length s)) as [Hlt|Hge].
  - destruct (abbreviate_loop_step fuel s d rate m idx text repl g Hm Hlt)
      as (c & Hc & [[_ Hstep]|(m' & g1 & a & e & Hm' & Hin & Hsl & Hnp & Hstep)]);
      rewrite Hstep, ?Hnever.
    + destruct (IH m (idx + 1) (text ++ [c]) repl g) as [g' ->];
        [done|done|lia|].
      exists g'. by rewrite <-app_assoc, Nat.add_1_r, (drop_S _ _ _ Hc).
    + destruct (IH m' (idx + 1) (text ++ [c]) repl g1) as [g' ->];
        [done| |lia|].
      { intros k. rewrite Hnp. apply Hnever. }
      exists g'. by rewrite <-app_assoc, Nat.add_1_r, (drop_S _ _ _ Hc).
  - rewrite abbreviate_loop_exit by lia.
    rewrite drop_ge, app_nil_r by lia. by eexists.
Qed.

(** More fuel does not change an answer. *)
Lemma abbreviate_loop_mono fuel fuel' (s : str) rate m idx text repl g r :
  fuel ≤ fuel' →
  abbreviate_loop fuel s rate m idx text repl g = Ret r →
  abbreviate_loop fuel' s rate m idx text repl g = Ret r.
Proof.
  revert fuel' m idx text repl g.
  induction fuel as [|fuel IH]; intros fuel' m idx text repl g Hle Hrun;
    [done|].
  destruct fuel' as [|fuel']; [lia|].
  rewrite abbreviate_loop_S in *.
  destruct (idx <? length s); [|done].
  unfold mbind, rand_bind in *.
  repeat case_match; simplify_eq; try done; apply IH; done || lia.
Qed.

(** The run reads the uniform draws only through their comparison with
    the rate. *)
Lemma abbreviate_loop_same_decisions fuel (s : str) rate m idx text repl g1 g2 :
  same_decisions rate g1 g2 →
  eval (abbreviate_loop fuel s rate m idx text repl) g1
  = eval (abbreviate_loop fuel s rate m idx text repl) g2.
Proof.
  revert m idx text repl g1 g2.
  induction fuel as [|fuel IH]; intros m idx text repl g1 g2 Hsame; [done|].
  unfold eval in *. rewrite abbreviate_loop_S.
  destruct (idx <? length s); [|done].
  destruct (m !! idx) as [pairs|].
  - destruct (shuffle_loop_same_decisions rate (length pairs - 1) pairs g1 g2
                Hsame) as (shuffled & g1' & g2' & Hsh1 & Hsh2 & [Hpy Hnp]).
    rewrite (rand_bind_Ret _ _ _ _ _ Hsh1), (rand_bind_Ret _ _ _ _ _ Hsh2).
    destruct shuffled as [|[a e] shuffled]; [done|].
    change (getitem ((a, e) :: shuffled) 0) with (Ret (a, e)).
    rewrite !lift_Ret.
    erewrite !(rand_bind_Ret uniform) by reflexivity.
    rewrite (Hnp 0).
    assert (same_decisions rate
              {| py_random := py_random g1'; np_random := tail (np_random g1') |}
              {| py_random := py_random g2'; np_random := tail (np_random g2') |}).
    { split; intros k; [apply Hpy|apply (Hnp (S k))]. }
    destruct (Qltb (np_random g2' 0) rate); [by apply IH|].
    destruct (getitem s idx); [|done..].
    rewrite !lift_Ret. by apply IH.
  - destruct (getitem s idx); [|done..].
    rewrite !lift_Ret. by apply IH.
Qed.

(** ** Substitution and the records it gives *)

Lemma eval_Ret {A} (m : rand A) g a :
  eval m g = Ret a ↔ ∃ g', m g = Ret (a, g').
Proof.
  unfold eval. destruct (m g) as [[a' g']| |]; split;
    try done; try (by intros [? ?]).
  - intros [= ->]. by exists g'.
  - by intros [? [= -> _]].
Qed.

Lemma substitute_unfold fuel (s : str) rate d m g :
  _extract_abbreviation_expansion_pairs s d = Ret m →
  substitute fuel s rate d g
  = if bool_decide (m ≠ ∅) then abbreviate_loop fuel s rate m 0 [] [] g
    else Ret ((s, []), g).
Proof.
  intros Hm. unfold substitute. rewrite Hm, lift_Ret.
  by case_bool_decide.
Qed.

(** [reverse_substitution] filters and yields on what [substitute]
    computes. *)
Lemma reverse_substitution_eval fuel key (s : str) rate d g :
  eval (reverse_substitution fuel (key, s) rate d) g
  = match eval (substitute fuel s rate d) g with
    | Ret (abbreviated, replacements) =>
        Ret (if length (split space abbreviated) <? 3 then []
             else
               let payload := (key, {| original_snippet := s;
                                       abbreviated_snippet := abbreviated |}) in
               (match replacements with
                | [] => [(([], []), payload)]
                | _ => []
                end)
               ++ ((λ replacement, (replacement, payload)) <$> replacements))
    | Raise e => Raise e
    | OutOfFuel => OutOfFuel
    end.
Proof.
  unfold eval, reverse_substitution, substitute, mbind, rand_bind.
  destruct (lift (_extract_abbreviation_expansion_pairs s d) g)
    as [[m g1]| |]; [|done..].
  destruct ((if bool_decide (m ≠ ∅) then _abbreviate_snippet fuel s m rate
             else mret (s, [])) g1)
    as [[[abbreviated replacements] g2]| |]; [|done..].
  by destruct (length (split space abbreviated) <? 3).
Qed.

(** With no empty expansion in the dictionary, substitution ends within
    one loop test per character and one more. *)
Lemma substitute_terminates fuel (s : str) rate d g :
  (∀ a e, (a, e) ∈ _get_dictionary_pairs d → e ≠ []) →
  length s < fuel →
  ∃ abbreviated replacements,
    eval (substitute fuel s rate d) g = Ret (abbreviated, replacements).
Proof.
  intros Hfull Hfuel.
  destruct (extract_spec s d) as (m & Hextract & Hm).
  unfold eval. rewrite (substitute_unfold _ _ _ _ _ _ Hextract).
  case_bool_decide; [|by eexists _, _].
  destruct (abbreviate_loop_terminates fuel s d rate m 0 [] [] g Hm Hfull)
    as ([abbreviated replacements] & g' & ->); [lia|].
  by eexists _, _.
Qed.

Lemma substitute_length fuel (s : str) rate d g abbreviated replacements :
  (∀ a e, (a, e) ∈ _get_dictionary_pairs d → length a ≤ length e) →
  eval (substitute fuel s rate d) g = Ret (abbreviated, replacements) →
  length abbreviated ≤ length s.
Proof.
  intros Hshort [g' Hrun]%eval_Ret.
  destruct (extract_spec s d) as (m & Hextract & Hm).
  rewrite (substitute_unfold _ _ _ _ _ _ Hextract) in Hrun.
  case_bool_decide.
  - change abbreviated with (abbreviated, replacements).1.
    by eapply (abbreviate_loop_length fuel s d rate m 0 [] []);
      [done|done|lia|simpl; lia|done].
  - by injection Hrun as <- _ _.
Qed.

Lemma never_below_zero g rate :
  rng_ok g → (rate == 0)%Q → ∀ k, Qltb (np_random g k) rate = false.
Proof.
  intros Hg Hrate k. unfold Qltb.
  apply negb_false_iff, Qle_bool_iff.
  rewrite Hrate. apply Hg.
Qed.

Lemma always_below_one g k : rng_ok g → Qltb (np_random g k) 1 = true.
Proof.
  intros Hg. unfold Qltb.
  apply negb_true_iff, not_true_iff_false. rewrite Qle_bool_iff.
  apply Qlt_not_le, Hg.
Qed.

Lemma split_nonempty sep (s : str) : split sep s ≠ [].
Proof.
  destruct s as [|c s]; [done|]. simpl.
  case_bool_decide; [done|]. by destruct (split sep s).
Qed.

(** [s.split(sep)] has one piece more than [s] has separators. *)
Lemma length_split sep (s : str) :
  length (split sep s) = S (length (filter (λ c, c = sep) s)).
Proof.
  induction s as [|c s IH]; [done|]. simpl.
  rewrite filter_cons. case_bool_decide as Hc.
  - rewrite decide_True by done. simpl. by rewrite IH.
  - rewrite decide_False by done. rewrite <-IH.
    pose proof (split_nonempty sep s). by destruct (split sep s).
Qed.

(** C6, as the code has it: when no abbreviation of the dictionary is
    longer than an expansion it stands for, the abbreviated snippet is
    never longer than the snippet, whatever the rate and the draws; and
    with no empty expansion the abbreviated snippet is produced. *)
Theorem abbreviation_never_lengthens (s : str) (rate : Q) (d : dictionary)
    (g : rng) :
  (∀ a e, (a, e) ∈ _get_dictionary_pairs d → length a ≤ length e) →
  (∀ fuel abbreviated replacements,
     eval (substitute fuel s rate d) g = Ret (abbreviated, replacements) →
     length abbreviated ≤ length s)
  ∧ ((∀ a e, (a, e) ∈ _get_dictionary_pairs d → e ≠ []) →
     ∀ fuel, length s < fuel →
       ∃ abbreviated replacements,
         eval (substitute fuel s rate d) g = Ret (abbreviated, replacements)
         ∧ length abbreviated ≤ length s).
Proof.
  intros Hshort. split.
  - intros fuel abbreviated replacements. by apply substitute_length.
  - intros Hfull fuel Hfuel.
    destruct (substitute_terminates fuel s rate d g Hfull Hfuel)
      as (abbreviated & replacements & Hrun).
    exists abbreviated, replacements. split; [done|].
    by eapply substitute_length.
Qed.

(** C4, as the code has it: the filter counts the pieces that
    [split(' ')] cuts the abbreviated text into, empty pieces included.
    With fewer than 3 pieces the snippet gives no record, with 3 or
    more it gives at least one; and with no empty expansion in the
    dictionary the abbreviated text is produced. *)
Theorem token_filter_counts_space_pieces (key s : str) (rate : Q)
    (d : dictionary) (g : rng) :
  (∀ fuel abbreviated replacements,
     eval (substitute fuel s rate d) g = Ret (abbreviated, replacements) →
     (length (split space abbreviated) < 3 →
      eval (reverse_substitution fuel (key, s) rate d) g = Ret [])
     ∧ (3 ≤ length (split space abbreviated) →
        ∃ record records,
          eval (reverse_substitution fuel (key, s) rate d) g
          = Ret (record :: records)))
  ∧ ((∀ a e, (a, e) ∈ _get_dictionary_pairs d → e ≠ []) →
     ∀ fuel, length s < fuel →
       ∃ abbreviated replacements,
         eval (substitute fuel s rate d) g = Ret (abbreviated, replacements)).
Proof.
  split; [|intros Hfull fuel Hfuel; by apply substitute_terminates].
  intros fuel abbreviated replacements Hrun.
  rewrite reverse_substitution_eval, Hrun.
  split; intros Hpieces.
  - by destruct (Nat.ltb_spec (length (split space abbreviated)) 3); [|lia].
  - destruct (Nat.ltb_spec (length (split space abbreviated)) 3); [lia|].
    destruct replacements; by eexists _, _.
Qed.

(** C8, as the code has it: at rate 0 a snippet that [split(' ')] cuts
    into 3 pieces or more, a snippet with two spaces at least, gives
    exactly one record, keyed by the sentinel, whose abbreviated
    snippet is the snippet itself. *)
Theorem rate_zero_keeps_snippet (key s : str) (rate : Q) (d : dictionary)
    (g : rng) (fuel : nat) :
  rng_ok g →
  (rate == 0)%Q →
  3 ≤ length (split space s) →
  length s < fuel →
  eval (reverse_substitution fuel (key, s) rate d) g
  = Ret [(([], []), (key, {| original_snippet := s;
                             abbreviated_snippet := s |}))].
Proof.
  intros Hg Hrate Hpieces Hfuel.
  assert (Hrun : eval (substitute fuel s rate d) g = Ret (s, [])).
  { destruct (extract_spec s d) as (m & Hextract & Hm).
    unfold eval. rewrite (substitute_unfold _ _ _ _ _ _ Hextract).
    case_bool_decide; [|done].
    destruct (abbreviate_loop_copies fuel s d rate m 0 [] [] g Hm) as [g' ->];
      [by apply never_below_zero|lia|done]. }
  rewrite reverse_substitution_eval, Hrun.
  by destruct (Nat.ltb_spec (length (split space s)) 3); [lia|].
Qed.

(** C2: on the test snippet and dictionary the scan finds "patient" at 4
    and "emergency room" at 22, and at rate 1.0 the substitution writes
    "the pt is in the er." and lists the two replacements from left to
    right. *)
Theorem test_snippet_is_abbreviated :
  let s := py "the patient is in the emergency room." in
  let d := [(py "pt", [py "patient"]); (py "er", [py "emergency room"])] in
  let m : gmap nat (list (str * str)) :=
    {[ 4 := [(py "pt", py "patient")];
       22 := [(py "er", py "emergency room")] ]} in
  let result := (py "the pt is in the er.",
                 [(py "pt", py "patient"); (py "er", py "emergency room")]) in
  _extract_abbreviation_expansion_pairs s d = Ret m
  ∧ ∀ g fuel, rng_ok g → length s < fuel →
      eval (_abbreviate_snippet fuel s m 1) g = Ret result
      ∧ eval (substitute fuel s 1 d) g = Ret result.
Proof.
  intros s d m result.
  assert (Hextract : _extract_abbreviation_expansion_pairs s d = Ret m)
    by (by vm_compute).
  split; [done|]. intros g fuel Hg Hfuel.
  assert (Hrun : eval (_abbreviate_snippet fuel s m 1) g = Ret result).
  { unfold _abbreviate_snippet.
    rewrite (abbreviate_loop_same_decisions _ _ _ _ _ _ _ g
               (with_uniform g (λ _, 0%Q))).
    2:{ split; intros k; [done|]. by rewrite always_below_one. }
    assert (Hshort : eval (abbreviate_loop 38 s 1 m 0 [] [])
                       (with_uniform g (λ _, 0%Q)) = Ret result)
      by (by vm_compute).
    apply eval_Ret in Hshort as [g' Hshort]. apply eval_Ret. exists g'.
    eapply abbreviate_loop_mono; [|done]. simpl in Hfuel. lia. }
  split; [done|].
  unfold eval in *. rewrite (substitute_unfold _ _ _ _ _ _ Hextract).
  by rewrite bool_decide_eq_true_2.
Qed.

(** ** The sampler *)

Lemma sample_loop_take snippets (limit : Z) :
  (0 < limit)%Z → sample_loop snippets limit = take (Z.to_nat limit) snippets.
Proof.
  revert limit. induction snippets as [|[key features] rest IH]; intros limit Hpos.
  - by rewrite take_nil.
  - replace (Z.to_nat limit) with (S (Z.to_nat (limit - 1))) by lia.
    cbn [sample_loop take]. f_equal.
    destruct (Z.leb_spec (limit - 1) 0) as [Hle|Hgt].
    + replace (limit - 1)%Z with 0%Z by lia. done.
    + by apply IH.
Qed.

(** C7: under a cap of 0 a group gives no record, and under a positive
    cap N it gives its first min(N, size) records in their order, so
    never more than N. *)
Theorem sample_caps_group
    (group : (str * str) * list (str * WSRSFeatures)) (cap : Z) :
  (0 ≤ cap)%Z →
  let kept := sample_snippets_by_replacement group cap in
  (cap = 0%Z → kept = [])
  ∧ kept = take (Z.to_nat cap) group.2
  ∧ length kept = Nat.min (Z.to_nat cap) (length group.2)
  ∧ (Z.of_nat (length kept) ≤ cap)%Z.
Proof.
  intros Hcap kept.
  assert (Htake : kept = take (Z.to_nat cap) group.2).
  { subst kept. unfold sample_snippets_by_replacement.
    destruct (Z.eqb_spec cap 0) as [->|Hne]; [done|].
    apply sample_loop_take. lia. }
  split_and!; [|done|..].
  - intros ->. by rewrite Htake.
  - by rewrite Htake, length_take.
  - rewrite Htake, length_take. lia.
Qed.

(** C10: under a negative cap a group that is not empty gives exactly
    its first record. *)
Theorem sample_negative_cap_first
    (pair : str * str) (first : str * WSRSFeatures)
    (others : list (str * WSRSFeatures)) (cap : Z) :
  (cap < 0)%Z →
  sample_snippets_by_replacement (pair, first :: others) cap = [first].
Proof.
  intros Hneg. unfold sample_snippets_by_replacement.
  destruct (Z.eqb_spec cap 0) as [?|_]; [lia|].
  destruct first as [key features]. cbn.
  destruct (Z.leb_spec (cap - 1) 0); [done|lia].
Qed.

(** ** The dictionary loaders *)

Lemma dict_get_set {V} (d : list (str * V)) k v k' :
  dict_get (dict_set d k v) k'
  = if bool_decide (k = k') then Some v else dict_get d k'.
Proof.
  induction d as [|[k0 v0] d IH]; simpl; [done|].
  destruct (decide (k0 = k)) as [->|Hne].
  - rewrite bool_decide_eq_true_2 by done. simpl.
    by case_bool_decide.
  - rewrite bool_decide_eq_false_2 by done. simpl. rewrite IH.
    repeat case_bool_decide; by simplify_eq.
Qed.

Lemma convert_row_NoDup d row :
  (∀ a es, dict_get d a = Some es → NoDup es) →
  ∀ a es, dict_get (convert_row d row) a = Some es → NoDup es.
Proof.
  intros Hd a es. destruct row as [abbreviation expansion].
  cbv beta iota zeta delta [convert_row].
  set (d' := match dict_get d abbreviation with
             | None => dict_set d abbreviation []
             | Some _ => d
             end).
  assert (Hd' : ∀ a es, dict_get d' a = Some es → NoDup es).
  { subst d'. destruct (dict_get d abbreviation); [done|].
    intros a' es'. rewrite dict_get_set.
    case_bool_decide; [|by apply Hd]. intros [= <-]. constructor. }
  destruct (dict_get d' abbreviation) as [expansions|] eqn:Hget; [|by apply Hd'].
  case_bool_decide as Hin; [by apply Hd'|].
  rewrite dict_get_set. case_bool_decide; [|by apply Hd'].
  intros [= <-]. apply NoDup_app. split_and!.
  - by eapply Hd'.
  - intros e He ->%list_elem_of_singleton. done.
  - apply NoDup_singleton.
Qed.

(** The builder's loader appends every row, present or not. *)
Lemma defaultdict_append_always d abbrev exp :
  dict_get (defaultdict_append d abbrev exp) abbrev
  = Some (default [] (dict_get d abbrev) ++ [exp]).
Proof.
  unfold defaultdict_append.
  destruct (dict_get d abbrev) as [expansions|] eqn:Hget;
    rewrite !dict_get_set, ?bool_decide_eq_true_2; done.
Qed.

(** The converter of the data frame, which the builder does not call,
    lists no expansion twice under an abbreviation. *)
Lemma convert_table_NoDup df a es :
  dict_get (_convert_abbrev_expansion_table_to_dict df) a = Some es →
  NoDup es.
Proof.
  unfold _convert_abbrev_expansion_table_to_dict.
  assert (Hgen : ∀ d, (∀ a es, dict_get d a = Some es → NoDup es) →
            dict_get (foldl convert_row d df) a = Some es → NoDup es).
  { induction df as [|row df IH]; intros d Hd; simpl; [by apply Hd|].
    apply IH. by apply convert_row_NoDup. }
  by apply Hgen.
Qed.

(** C5, where the code departs from it: from a file that gives the row
    (pt, patient) twice the builder's loader lists the expansion twice,
    while the converter of the data frame lists it once. *)
Theorem split_generators_keeps_repeated_rows :
  _split_generators_dict repeated_rows
  = Ret [(py "pt", [py "patient"; py "patient"])]
  ∧ ¬ NoDup [py "patient"; py "patient"]
  ∧ _convert_abbrev_expansion_table_to_dict
      [(py "pt", py "patient"); (py "pt", py "patient")]
    = [(py "pt", [py "patient"])].
Proof.
  split_and!; [by vm_compute| |by vm_compute].
  intros Hdup. apply NoDup_cons in Hdup as [Hnotin _].
  apply Hnotin. left.
Qed.

(** ** The builder configuration *)

(** C3, as the code has it: the constructor checks none of its three
    values. Whenever the base constructor accepts the name and the
    keyword arguments the configuration is built and holds the values
    as given, and the only errors are those of the base constructor. *)
Theorem config_init_checks_nothing {kwargs BuilderConfig : Type}
    (super_init : str → kwargs → outcome BuilderConfig) (name : str)
    (max_sentences : Z) (rate : Q) (num_snippets : Z) (more : kwargs) :
  (∀ self, super_init name more = Ret self →
     C4WSRSConfig_init super_init name max_sentences rate num_snippets more
     = Ret {| builder_config := self;
              max_sentences_per_snippet := max_sentences;
              abbreviation_rate := rate;
              num_snippets_per_replacement := num_snippets |})
  ∧ (∀ e,
       C4WSRSConfig_init super_init name max_sentences rate num_snippets more
       = Raise e
       ↔ super_init name more = Raise e).
Proof.
  unfold C4WSRSConfig_init. split.
  - by intros self ->.
  - intros e. destruct (super_init name more); cbn; split; congruence.
Qed.

(** ** The match map, exactly *)

Lemma accepts_slice (s w : str) i :
  accepts s w i = true → slice s i (i + length w) = w.
Proof.
  unfold accepts. intros Hacc. apply matcher_true_slice.
  by destruct (_snippet_contains_word_at_index s w i) as [[]| |].
Qed.

Lemma matching_pairs_filter (s : str) candidates i :
  i ≤ length s →
  matching_pairs s candidates i
  = Ret (filter (λ pair, accepts s pair.2 i) candidates).
Proof.
  intros Hi. induction candidates as [|[a e] rest IH]; [done|].
  cbn [matching_pairs]. rewrite IH, filter_cons. simpl.
  destruct (matcher_in_range s e i Hi) as [found Hfound].
  rewrite Hfound. cbn [mbind outcome_bind].
  destruct found.
  - rewrite decide_True; [done|]. unfold accepts. by rewrite Hfound.
  - rewrite decide_False; [done|]. unfold accepts. rewrite Hfound. by intros [].
Qed.

Lemma extract_loop_lookup (s : str) d todo idx m :
  idx + todo ≤ length s →
  ∃ m', extract_loop s d todo idx m = Ret m'
    ∧ ∀ i, m' !! i
           = if decide (idx ≤ i < idx + todo) then
               match candidates_at s d i with
               | [] => m !! i
               | first :: others => Some (first :: others)
               end
             else m !! i.
Proof.
  revert idx m. induction todo as [|todo IH]; intros idx m Hidx.
  - exists m. split; [done|]. intros i. by rewrite decide_False by lia.
  - cbn [extract_loop]. rewrite matching_pairs_filter by lia.
    cbn [mbind outcome_bind]. fold (candidates_at s d idx).
    edestruct (IH (idx + 1)) as (m' & -> & Hlookup); [lia|].
    exists m'. split; [done|]. intros i. rewrite Hlookup.
    destruct (decide (i = idx)) as [->|Hne].
    + rewrite decide_False, decide_True by lia.
      destruct (candidates_at s d idx); [done|]. by rewrite lookup_insert_eq.
    + assert (Hkeep : (match candidates_at s d idx with
                       | [] => m
                       | _ :: _ => <[idx := candidates_at s d idx]> m
                       end) !! i = m !! i).
      { destruct (candidates_at s d idx); [done|].
        by rewrite lookup_insert_ne. }
      rewrite Hkeep.
      destruct (decide (idx + 1 ≤ i < idx + 1 + todo)).
      * by rewrite decide_True by lia.
      * by rewrite decide_False by lia.
Qed.

Lemma extract_lookup (s : str) d :
  ∃ m, _extract_abbreviation_expansion_pairs s d = Ret m
    ∧ ∀ i, m !! i
           = if decide (i < length s) then
               match candidates_at s d i with
               | [] => None
               | first :: others => Some (first :: others)
               end
             else None.
Proof.
  destruct (extract_loop_lookup s d (length s) 0 ∅) as (m & Hrun & Hlookup);
    [done|].
  exists m. split; [done|]. intros i. rewrite Hlookup, lookup_empty.
  destruct (decide (i < length s)).
  - by rewrite decide_True by lia.
  - by rewrite decide_False by lia.
Qed.

(** X1: the scan never raises, and its map has an entry exactly at the
    indices of the snippet where the matcher accepts the expansion of
    some candidate; the entry lists all the candidates accepted there,
    in dictionary order. *)
Theorem match_map_is_exact (s : str) (d : dictionary) :
  ∃ m, _extract_abbreviation_expansion_pairs s d = Ret m
    ∧ ∀ i pairs,
        m !! i = Some pairs
        ↔ i < length s ∧ pairs ≠ [] ∧ pairs = candidates_at s d i.
Proof.
  destruct (extract_lookup s d) as (m & Hrun & Hlookup).
  exists m. split; [done|]. intros i pairs. rewrite Hlookup.
  destruct (decide (i < length s)) as [Hi|Hi].
  - destruct (candidates_at s d i) as [|first others].
    + split; [done|]. by intros (_ & ? & ->).
    + split; [by intros [= <-]|by intros (_ & _ & ->)].
  - split; [done|]. by intros [? _].
Qed.

Lemma extract_accepted (s : str) d :
  ∃ m, _extract_abbreviation_expansion_pairs s d = Ret m
       ∧ accepted_of s d m ∧ matches_of s d m.
Proof.
  destruct (extract_lookup s d) as (m & Hrun & Hlookup).
  destruct (extract_spec s d) as (m' & Hrun' & Hm).
  rewrite Hrun in Hrun'. injection Hrun' as <-.
  exists m. split_and!; [done| |done].
  intros i pairs. rewrite Hlookup.
  destruct (decide (i < length s)) as [Hi|Hi]; [|done].
  destruct (candidates_at s d i) as [|first others] eqn:Hat; [done|].
  intros [= <-]. split_and!; [done|done|].
  intros a e Hin. rewrite <-Hat in Hin.
  apply list_elem_of_filter in Hin as [Hacc Hin]. simpl in Hacc.
  split; [done|]. by apply Is_true_true.
Qed.

(** ** What a run of the substitution keeps *)

(** One turn inside the snippet, on any map. *)
Lemma abbreviate_loop_turn fuel (s : str) rate m idx text repl g :
  idx < length s →
  ∃ c, s !! idx = Some c ∧
    match m !! idx with
    | None =>
        abbreviate_loop (S fuel) s rate m idx text repl g
        = abbreviate_loop fuel s rate m (idx + 1) (text ++ [c]) repl g
    | Some pairs =>
        ∃ shuffled g1,
          shuffled ≡ₚ pairs
          ∧ abbreviate_loop (S fuel) s rate m idx text repl g
            = match shuffled with
              | [] => Raise IndexError
              | (a, e) :: _ =>
                  let g' := {| py_random := py_random g1;
                               np_random := tail (np_random g) |} in
                  if Qltb (np_random g 0) rate then
                    abbreviate_loop fuel s rate (<[idx := shuffled]> m)
                      (idx + length e) (text ++ a) (repl ++ [(a, e)]) g'
                  else
                    abbreviate_loop fuel s rate (<[idx := shuffled]> m)
                      (idx + 1) (text ++ [c]) repl g'
              end
    end.
Proof.
  intros Hidx.
  destruct (lookup_lt_is_Some_2 s idx Hidx) as [c Hc].
  exists c. split; [done|].
  rewrite abbreviate_loop_S.
  destruct (Nat.ltb_spec idx (length s)) as [_|?]; [|lia].
  destruct (m !! idx) as [pairs|] eqn:Hpairs.
  - destruct (shuffle_spec pairs g) as (shuffled & g1 & Hsh & Hperm & Hnp).
    exists shuffled, g1. split; [done|].
    rewrite (rand_bind_Ret _ _ _ _ _ Hsh).
    destruct shuffled as [|[a e] shuffled]; [done|].
    change (getitem ((a, e) :: shuffled) 0) with (Ret (a, e)).
    rewrite lift_Ret.
    erewrite (rand_bind_Ret uniform) by reflexivity.
    rewrite (getitem_Some _ _ _ Hc), Hnp. cbn zeta.
    by destruct (Qltb (np_random g 0) rate).
  - by rewrite (getitem_Some _ _ _ Hc).
Qed.

Lemma accepted_of_shuffled (s : str) d m idx pairs shuffled :
  accepted_of s d m →
  m !! idx = Some pairs →
  shuffled ≡ₚ pairs →
  accepted_of s d (<[idx := shuffled]> m).
Proof.
  intros Hm Hpairs Hperm i pairs'.
  destruct (decide (idx = i)) as [->|Hne].
  - rewrite lookup_insert_eq. intros [= <-].
    destruct (Hm _ _ Hpairs) as (Hi & Hfull & Hall).
    split_and!; [done| |].
    + intros ->. by apply Permutation_nil in Hperm.
    + intros a e Hin. apply Hall. by rewrite <-Hperm.
  - rewrite lookup_insert_ne by done. apply Hm.
Qed.

Lemma accepted_of_matches (s : str) d m : accepted_of s d m → matches_of s d m.
Proof.
  intros Hm i pairs Hpairs. destruct (Hm _ _ Hpairs) as (_ & Hfull & Hall).
  split; [done|]. intros a e Hin. destruct (Hall _ _ Hin).
  split; [done|]. by apply accepts_slice.
Qed.

(** A turn on a map of accepted candidates. *)
Lemma abbreviate_loop_accepted_turn fuel (s : str) d rate m idx text repl g :
  accepted_of s d m →
  idx < length s →
  ∃ c, s !! idx = Some c ∧
    ((m !! idx = None
      ∧ abbreviate_loop (S fuel) s rate m idx text repl g
        = abbreviate_loop fuel s rate m (idx + 1) (text ++ [c]) repl g)
     ∨ ∃ m' g' a e,
         accepted_of s d m'
         ∧ is_Some (m' !! idx)
         ∧ (a, e) ∈ _get_dictionary_pairs d
         ∧ accepts s e idx = true
         ∧ np_random g' = tail (np_random g)
         ∧ abbreviate_loop (S fuel) s rate m idx text repl g
           = if Qltb (np_random g 0) rate then
               abbreviate_loop fuel s rate m' (idx + length e) (text ++ a)
                 (repl ++ [(a, e)]) g'
             else
               abbreviate_loop fuel s rate m' (idx + 1) (text ++ [c]) repl g').
Proof.
  intros Hm Hidx.
  destruct (abbreviate_loop_turn fuel s rate m idx text repl g Hidx)
    as (c & Hc & Hturn).
  exists c. split; [done|].
  destruct (m !! idx) as [pairs|] eqn:Hpairs; [right|by left].
  destruct Hturn as (shuffled & g1 & Hperm & Hturn).
  destruct (Hm _ _ Hpairs) as (_ & Hfull & Hall).
  destruct shuffled as [|[a e] shuffled].
  { by apply Permutation_nil in Hperm. }
  destruct (Hall a e) as [Hin Hacc]; [rewrite <-Hperm; left|].
  eexists (<[idx := (a, e) :: shuffled]> m), _, a, e.
  split_and!; [by eapply accepted_of_shuffled| |done|done| |exact Hturn].
  - rewrite lookup_insert_eq. by eexists.
  - done.
Qed.

(** On the map of a scan the loop raises nothing. *)
Lemma abbreviate_loop_no_raise fuel (s : str) d rate m idx text repl g exc :
  matches_of s d m →
  abbreviate_loop fuel s rate m idx text repl g ≠ Raise exc.
Proof.
  revert m idx text repl g.
  induction fuel as [|fuel IH]; intros m idx text repl g Hm; [done|].
  destruct (decide (idx < length s)) as [Hlt|Hge].
  - destruct (abbreviate_loop_step fuel s d rate m idx text repl g Hm Hlt)
      as (c & Hc & [[_ ->]|(m' & g1 & a & e & Hm' & _ & _ & _ & ->)]).
    + by apply IH.
    + destruct (Qltb (np_random g 0) rate); by apply IH.
  - by rewrite abbreviate_loop_exit by lia.
Qed.

Lemma assemble_copy side segments (rest : str) c :
  assemble side segments (rest ++ [c]) = assemble side segments rest ++ [c].
Proof. unfold assemble. by rewrite app_assoc. Qed.

Lemma assemble_replace side segments (rest : str) pair :
  assemble side (segments ++ [(rest, pair)]) []
  = assemble side segments rest ++ side pair.
Proof.
  unfold assemble. rewrite fmap_app, concat_app. simpl.
  by rewrite !app_nil_r, app_assoc.
Qed.

(** The text written is the text read with the expansions of the
    replacements exchanged for their abbreviations. *)
Lemma abbreviate_loop_assemble fuel (s : str) d rate m idx text repl g
    segments rest r g' :
  matches_of s d m →
  idx ≤ length s →
  repl = segments.*2 →
  take idx s = assemble snd segments rest →
  text = assemble fst segments rest →
  abbreviate_loop fuel s rate m idx text repl g = Ret (r, g') →
  ∃ segments' rest',
    r.2 = segments'.*2
    ∧ s = assemble snd segments' rest'
    ∧ r.1 = assemble fst segments' rest'.
Proof.
  revert m idx text repl g segments rest.
  induction fuel as [|fuel IH];
    intros m idx text repl g segments rest Hm Hidx Hrepl Hread Htext Hrun;
    [done|].
  destruct (decide (idx < length s)) as [Hlt|Hge].
  - assert (Hcopy : ∀ c, s !! idx = Some c →
              take (idx + 1) s = assemble snd segments (rest ++ [c])).
    { intros c Hc.
      by rewrite Nat.add_1_r, (take_S_r _ _ _ Hc), Hread, assemble_copy. }
    destruct (abbreviate_loop_step fuel s d rate m idx text repl g Hm Hlt)
      as (c & Hc & [[_ Hstep]|(m' & g1 & a & e & Hm' & Hin & Hsl & _ & Hstep)]);
      rewrite Hstep in Hrun.
    + eapply (IH m (idx + 1) (text ++ [c]) repl g segments (rest ++ [c]));
        [done|lia|done|by apply Hcopy| |done].
      by rewrite Htext, assemble_copy.
    + destruct (Qltb (np_random g 0) rate).
      * eapply (IH m' (idx + length e) (text ++ a) (repl ++ [(a, e)]) g1
                  (segments ++ [(rest, (a, e))]) []);
          [done| | | | |done].
        -- by apply slice_fits.
        -- by rewrite Hrepl, fmap_app.
        -- rewrite assemble_replace, <-Hread. simpl.
           rewrite <-(take_take_drop s idx (length e)). f_equal.
           unfold slice in Hsl.
           by replace (idx + length e - idx) with (length e) in Hsl by lia.
        -- by rewrite assemble_replace, Htext.
      * eapply (IH m' (idx + 1) (text ++ [c]) repl g1 segments (rest ++ [c]));
          [done|lia|done|by apply Hcopy| |done].
        by rewrite Htext, assemble_copy.
  - rewrite abbreviate_loop_exit in Hrun by lia. injection Hrun as <- _.
    exists segments, rest. split_and!; [done| |done].
    by rewrite <-Hread, take_ge by lia.
Qed.

Lemma substitute_assemble fuel (s : str) rate d g abbreviated replacements :
  eval (substitute fuel s rate d) g = Ret (abbreviated, replacements) →
  ∃ segments rest,
    replacements = segments.*2
    ∧ s = assemble snd segments rest
    ∧ abbreviated = assemble fst segments rest.
Proof.
  intros [g' Hrun]%eval_Ret.
  destruct (extract_spec s d) as (m & Hextract & Hm).
  rewrite (substitute_unfold _ _ _ _ _ _ Hextract) in Hrun.
  case_bool_decide.
  - by apply (abbreviate_loop_assemble fuel s d rate m 0 [] [] g [] []
                (abbreviated, replacements) g');
      [done|lia|done|by rewrite take_0|done|done].
  - injection Hrun as <- <- _. by exists [], s.
Qed.

Lemma length_assemble side segments (rest : str) :
  length (assemble side segments rest)
  = sum_list (length <$> segments.*1)
    + sum_list (length ∘ side <$> segments.*2) + length rest.
Proof.
  unfold assemble. rewrite length_app. f_equal.
  induction segments as [|[copied pair] segments IH]; [done|].
  cbn. rewrite !length_app, IH. lia.
Qed.

Lemma abbreviate_loop_replacements fuel (s : str) d rate m idx text repl g r g'
    (P : str * str → Prop) :
  (∀ a e i, (a, e) ∈ _get_dictionary_pairs d → i < length s →
     accepts s e i = true → P (a, e)) →
  accepted_of s d m →
  Forall P repl →
  abbreviate_loop fuel s rate m idx text repl g = Ret (r, g') →
  Forall P r.2.
Proof.
  intros HP. revert m idx text repl g.
  induction fuel as [|fuel IH]; intros m idx text repl g Hm Hrepl Hrun;
    [done|].
  destruct (decide (idx < length s)) as [Hlt|Hge].
  - destruct (abbreviate_loop_accepted_turn fuel s d rate m idx text repl g
                Hm Hlt)
      as (c & Hc & [[_ Hstep]
                   |(m' & g1 & a & e & Hm' & _ & Hin & Hacc & _ & Hstep)]);
      rewrite Hstep in Hrun.
    + by eapply IH.
    + destruct (Qltb (np_random g 0) rate); [|by eapply IH].
      eapply IH; [done| |done].
      apply Forall_app. split; [done|]. apply Forall_singleton. by eapply HP.
  - rewrite abbreviate_loop_exit in Hrun by lia. by injection Hrun as <- _.
Qed.

(** X2: the abbreviated snippet differs from the snippet by the
    replacements only. The snippet can be cut into copied stretches
    with an expansion between each two, so that the abbreviated snippet
    is the same stretches with the abbreviations in place of the
    expansions, and the pairs are the replacement list in order. *)
Theorem substitution_exchanges_expansions (fuel : nat) (s : str) (rate : Q)
    (d : dictionary) (g : rng) (abbreviated : str)
    (replacements : list (str * str)) :
  eval (substitute fuel s rate d) g = Ret (abbreviated, replacements) →
  ∃ segments rest,
    replacements = segments.*2
    ∧ s = assemble snd segments rest
    ∧ abbreviated = assemble fst segments rest.
Proof. apply substitute_assemble. Qed.

(** X3: the abbreviated snippet is shorter than the snippet by the
    lengths of the expansions replaced and longer by the lengths of the
    abbreviations written. *)
Theorem substitution_length_account (fuel : nat) (s : str) (rate : Q)
    (d : dictionary) (g : rng) (abbreviated : str)
    (replacements : list (str * str)) :
  eval (substitute fuel s rate d) g = Ret (abbreviated, replacements) →
  length abbreviated + sum_list (length ∘ snd <$> replacements)
  = length s + sum_list (length ∘ fst <$> replacements).
Proof.
  intros (segments & rest & -> & Hs & ->)%substitute_assemble.
  rewrite Hs at 1. rewrite !length_assemble. lia.
Qed.

(** X4: every replacement is a pair of the dictionary whose expansion
    the matcher accepts somewhere in the snippet. *)
Theorem replacements_come_from_dictionary (fuel : nat) (s : str) (rate : Q)
    (d : dictionary) (g : rng) (abbreviated : str)
    (replacements : list (str * str)) :
  eval (substitute fuel s rate d) g = Ret (abbreviated, replacements) →
  ∀ a e, (a, e) ∈ replacements →
    (a, e) ∈ _get_dictionary_pairs d
    ∧ ∃ i, i < length s ∧ _snippet_contains_word_at_index s e i = Ret true.
Proof.
  intros [g' Hrun]%eval_Ret.
  destruct (extract_accepted s d) as (m & Hextract & Hm & _).
  rewrite (substitute_unfold _ _ _ _ _ _ Hextract) in Hrun.
  case_bool_decide.
  - set (P := λ pair : str * str,
        pair ∈ _get_dictionary_pairs d
        ∧ ∃ i, i < length s
               ∧ _snippet_contains_word_at_index s pair.2 i = Ret true).
    assert (Hall : Forall P (abbreviated, replacements).2).
    { apply (abbreviate_loop_replacements fuel s d rate m 0 [] [] g
               (abbreviated, replacements) g' P); [|done|constructor|done].
      intros a e i Hin Hi Hacc. split; [done|]. exists i. split; [done|].
      unfold accepts in Hacc. simpl.
      by destruct (_snippet_contains_word_at_index s e i) as [[]| |]. }
    rewrite Forall_forall in Hall.
    intros a e Hin. apply (Hall (a, e) Hin).
  - injection Hrun as _ <- _. by intros a e ?%elem_of_nil.
Qed.

(** X5: reverse substitution raises nothing, whatever the snippet, the
    dictionary, the rate and the draws: it yields its records or it
    does not end. *)
Theorem reverse_substitution_never_raises (fuel : nat) (key s : str)
    (rate : Q) (d : dictionary) (g : rng) :
  eval (reverse_substitution fuel (key, s) rate d) g = OutOfFuel
  ∨ ∃ records, eval (reverse_substitution fuel (key, s) rate d) g = Ret records.
Proof.
  rewrite reverse_substitution_eval.
  destruct (extract_spec s d) as (m & Hextract & Hm).
  unfold eval. rewrite (substitute_unfold _ _ _ _ _ _ Hextract).
  case_bool_decide; [|right; by eexists].
  pose proof (λ exc, abbreviate_loop_no_raise fuel s d rate m 0 [] [] g exc Hm)
    as Hloop.
  destruct (abbreviate_loop fuel s rate m 0 [] [] g) as [[[] ?]|exc|].
  - right. by eexists.
  - by destruct (Hloop exc).
  - by left.
Qed.

Lemma always_below_rate g rate :
  rng_ok g → (1 <= rate)%Q → ∀ k, Qltb (np_random g k) rate = true.
Proof.
  intros Hg Hrate k. unfold Qltb.
  apply negb_true_iff, not_true_iff_false. rewrite Qle_bool_iff.
  apply Qlt_not_le. eapply Qlt_le_trans; [apply Hg|done].
Qed.

(** With only empty expansions to abbreviate and every draw below the
    rate, the cursor stops at the first entry of the map it meets. *)
Lemma abbreviate_loop_stuck fuel (s : str) d rate m idx text repl g i :
  accepted_of s d m →
  (∀ a e, (a, e) ∈ _get_dictionary_pairs d → e = []) →
  (∀ k, Qltb (np_random g k) rate = true) →
  idx ≤ i →
  is_Some (m !! i) →
  abbreviate_loop fuel s rate m idx text repl g = OutOfFuel.
Proof.
  intros Hm Hempty. revert m idx text repl g i Hm.
  induction fuel as [|fuel IH]; intros m idx text repl g i Hm Hbelow Hidx Hi;
    [done|].
  assert (Hlt : idx < length s).
  { destruct Hi as [pairs Hpairs]. destruct (Hm _ _ Hpairs). lia. }
  destruct (abbreviate_loop_accepted_turn fuel s d rate m idx text repl g
              Hm Hlt)
    as (c & Hc & [[Hnone ->]
                 |(m' & g1 & a & e & Hm' & Hsome & Hin & _ & Hnp & ->)]).
  - apply (IH _ _ _ _ _ i); [done|done| |done].
    destruct (decide (idx = i)) as [->|?]; [|lia].
    rewrite Hnone in Hi. by destruct Hi.
  - rewrite Hbelow, (Hempty a e Hin). simpl.
    apply (IH _ _ _ _ _ idx); [done| |lia|done].
    intros k. rewrite Hnp. apply Hbelow.
Qed.

(** X6: when every expansion of the dictionary is the empty string,
    the empty string is accepted somewhere in the snippet and the rate
    is 1 or more, reverse substitution does not end: whatever the fuel,
    it runs out. *)
Theorem empty_expansions_never_end (key s : str) (rate : Q) (d : dictionary)
    (g : rng) (i : nat) :
  rng_ok g →
  (1 <= rate)%Q →
  _get_dictionary_pairs d ≠ [] →
  (∀ a e, (a, e) ∈ _get_dictionary_pairs d → e = []) →
  i < length s →
  _snippet_contains_word_at_index s [] i = Ret true →
  ∀ fuel, eval (reverse_substitution fuel (key, s) rate d) g = OutOfFuel.
Proof.
  intros Hg Hrate Hfull Hempty Hi Hacc fuel.
  rewrite reverse_substitution_eval.
  destruct (extract_accepted s d) as (m & Hextract & Hm & _).
  destruct (extract_lookup s d) as (m' & Hextract' & Hlookup).
  rewrite Hextract in Hextract'. injection Hextract' as <-.
  assert (Hentry : is_Some (m !! i)).
  { rewrite Hlookup, decide_True by done.
    destruct (candidates_at s d i) as [|first others] eqn:Hat; [|by eexists].
    destruct (_get_dictionary_pairs d) as [|[a e] rest] eqn:Hpairs; [done|].
    assert ((a, e) ∈ candidates_at s d i) as Hin; [|by rewrite Hat in Hin;
      apply elem_of_nil in Hin].
    unfold candidates_at. rewrite Hpairs. apply list_elem_of_filter.
    split; [|left]. simpl. rewrite (Hempty a e); [|left].
    unfold accepts. by rewrite Hacc. }
  unfold eval. rewrite (substitute_unfold _ _ _ _ _ _ Hextract).
  rewrite bool_decide_eq_true_2.
  2:{ intros ->. rewrite lookup_empty in Hentry. by destruct Hentry. }
  by rewrite (abbreviate_loop_stuck fuel s d rate m 0 [] [] g i Hm Hempty
                (always_below_rate g rate Hg Hrate) (Nat.le_0_l _) Hentry).
Qed.

Lemma abbreviate_loop_empty_entry fuel (s : str) rate m idx text repl g i :
  (∀ j, idx ≤ j < i → m !! j = None) →
  m !! i = Some [] →
  i < length s →
  idx ≤ i →
  i - idx < fuel →
  abbreviate_loop fuel s rate m idx text repl g = Raise IndexError.
Proof.
  revert idx text repl g.
  induction fuel as [|fuel IH]; intros idx text repl g Hnone Hi Hlen Hidx Hfuel;
    [lia|].
  destruct (abbreviate_loop_turn fuel s rate m idx text repl g)
    as (c & Hc & Hturn); [lia|].
  destruct (decide (idx = i)) as [->|Hne].
  - rewrite Hi in Hturn. destruct Hturn as (shuffled & g1 & Hperm & ->).
    apply Permutation_nil_r in Hperm. by subst shuffled.
  - rewrite Hnone in Hturn by lia. rewrite Hturn.
    apply IH; [|done|done|lia|lia]. intros j Hj. apply Hnone. lia.
Qed.

(** X7: given a map whose first entry inside the snippet is an empty
    list of candidates, [_abbreviate_snippet] raises [IndexError] when
    the cursor gets there. *)
Theorem empty_candidate_list_raises (fuel : nat) (s : str) (rate : Q)
    (m : gmap nat (list (str * str))) (g : rng) (i : nat) :
  (∀ j, j < i → m !! j = None) →
  m !! i = Some [] →
  i < length s →
  i < fuel →
  eval (_abbreviate_snippet fuel s m rate) g = Raise IndexError.
Proof.
  intros Hnone Hi Hlen Hfuel. unfold eval, _abbreviate_snippet.
  rewrite (abbreviate_loop_empty_entry fuel s rate m 0 [] [] g i); [done|..];
    [|done|done|lia|lia].
  intros j Hj. apply Hnone. lia.
Qed.

(** X8: when the matcher accepts no candidate anywhere in the snippet,
    as with an empty dictionary, reverse substitution makes no draw and
    needs no fuel; it yields the sentinel record with the snippet
    unchanged if the snippet has 3 pieces or more, and nothing if not. *)
Theorem no_candidate_no_draw (fuel : nat) (key s : str) (rate : Q)
    (d : dictionary) (g : rng) :
  (∀ i, i < length s → candidates_at s d i = []) →
  reverse_substitution fuel (key, s) rate d g
  = Ret (if length (split space s) <? 3 then []
         else [(([], []), (key, {| original_snippet := s;
                                   abbreviated_snippet := s |}))],
         g).
Proof.
  intros Hnone.
  destruct (extract_lookup s d) as (m & Hextract & Hlookup).
  assert (m = ∅) as ->.
  { apply map_eq. intros i. rewrite Hlookup, lookup_empty.
    destruct (decide (i < length s)); [|done]. by rewrite Hnone. }
  unfold reverse_substitution. rewrite Hextract, lift_Ret.
  rewrite bool_decide_eq_false_2 by (by intros []).
  erewrite rand_bind_Ret by reflexivity.
  cbn beta iota. by destruct (length (split space s) <? 3).
Qed.

(** X9: a snippet gives records exactly when its abbreviated text has
    two space characters or more. *)
Theorem records_iff_two_spaces (fuel : nat) (key s : str) (rate : Q)
    (d : dictionary) (g : rng) (records : list ((str * str) * (str * WSRSFeatures))) :
  eval (reverse_substitution fuel (key, s) rate d) g = Ret records →
  ∃ abbreviated replacements,
    eval (substitute fuel s rate d) g = Ret (abbreviated, replacements)
    ∧ (records ≠ [] ↔ 2 ≤ length (filter (λ c, c = space) abbreviated)).
Proof.
  rewrite reverse_substitution_eval.
  destruct (eval (substitute fuel s rate d) g)
    as [[abbreviated replacements]| |]; [|done..].
  intros [= <-]. exists abbreviated, replacements. split; [done|].
  rewrite length_split.
  destruct (Nat.ltb_spec (S (length (filter (λ c, c = space) abbreviated))) 3).
  - split; [done|lia].
  - split; [lia|]. intros _. by destruct replacements.
Qed.

(** ** The sampler, for every cap *)

Lemma sample_loop_any snippets (limit : Z) :
  sample_loop snippets limit = take (Z.to_nat (Z.max 1 limit)) snippets.
Proof.
  destruct (decide (0 < limit)%Z) as [Hpos|Hneg].
  - rewrite sample_loop_take by done. f_equal. lia.
  - replace (Z.to_nat (Z.max 1 limit)) with 1 by lia.
    destruct snippets as [|[key features] rest]; [done|]. cbn.
    by destruct (Z.leb_spec (limit - 1) 0); [|lia].
Qed.

(** X10: for a cap of any sign the sampler keeps a prefix of the group
    and nothing else; it keeps nothing exactly when the cap is 0 or the
    group is empty; and sampling what it kept changes nothing. *)
Theorem sample_keeps_a_prefix (pair : str * str)
    (snippets : list (str * WSRSFeatures)) (cap : Z) :
  let kept := sample_snippets_by_replacement (pair, snippets) cap in
  kept `prefix_of` snippets
  ∧ (kept = [] ↔ cap = 0%Z ∨ snippets = [])
  ∧ sample_snippets_by_replacement (pair, kept) cap = kept.
Proof.
  unfold sample_snippets_by_replacement. simpl.
  destruct (Z.eqb_spec cap 0) as [->|Hne].
  - split; [apply prefix_nil|]. split; [|done].
    split; [intros _; by left|done].
  - rewrite !sample_loop_any.
    assert (0 < Z.to_nat (Z.max 1 cap)) by lia.
    destruct (Z.to_nat (Z.max 1 cap)) as [|n] eqn:Hn; [lia|].
    split; [apply prefix_take|]. split.
    + destruct snippets; simpl; split; try done; [by right|by intros [?|?]].
    + rewrite take_take. f_equal. lia.
Qed.

(** ** The dictionary loaders, exactly *)

Lemma dict_get_None {V} (d : list (str * V)) k :
  dict_get d k = None ↔ k ∉ d.*1.
Proof.
  induction d as [|[k0 v0] d IH]; simpl.
  - split; [intros _ ?%elem_of_nil; done|done].
  - case_bool_decide as Hk.
    + subst. split; [done|]. intros []. left.
    + rewrite IH, not_elem_of_cons.
      split; [intros ?; split; [by intros ->|done]|by intros [_ ?]].
Qed.

Lemma add_absent_present l x : x ∈ l → add_absent l x = l.
Proof. intros. unfold add_absent. by rewrite bool_decide_eq_true_2. Qed.

Lemma add_absent_absent l x : x ∉ l → add_absent l x = l ++ [x].
Proof. intros. unfold add_absent. by rewrite bool_decide_eq_false_2. Qed.

Lemma dict_set_keys {V} (d : list (str * V)) k v :
  (dict_set d k v).*1 = add_absent d.*1 k.
Proof.
  induction d as [|[k0 v0] d IH]; cbn [dict_set].
  - rewrite add_absent_absent; [done|]. by intros ?%elem_of_nil.
  - case_bool_decide as Hk0; rewrite !fmap_cons; cbn [fst].
    + subst. rewrite add_absent_present; [done|left].
    + rewrite IH.
      destruct (decide (k ∈ d.*1)) as [Hin|Hnot].
      * rewrite !add_absent_present; [done|by right|done].
      * rewrite !add_absent_absent; [done| |done].
        rewrite not_elem_of_cons. split; [by intros ->|done].
Qed.

Lemma add_absent_twice l x : add_absent (add_absent l x) x = add_absent l x.
Proof.
  destruct (decide (x ∈ l)) as [Hin|Hnot].
  - by rewrite !(add_absent_present l x).
  - rewrite (add_absent_absent l x) by done.
    apply add_absent_present. rewrite elem_of_app, list_elem_of_singleton. auto.
Qed.

Lemma first_occurrences_subset l x : x ∈ first_occurrences l → x ∈ l.
Proof.
  induction l as [|y l IH]; [done|]. simpl.
  intros [->|Hin]%elem_of_cons; [left|].
  apply list_elem_of_filter in Hin as [_ Hin]. right. by apply IH.
Qed.

Lemma filter_comm {A} (P Q : A → Prop) `{∀ x, Decision (P x)}
    `{∀ x, Decision (Q x)} (l : list A) :
  filter P (filter Q l) = filter Q (filter P l).
Proof.
  induction l as [|x l IH]; [done|].
  rewrite !filter_cons.
  destruct (decide (P x)), (decide (Q x));
    rewrite ?filter_cons, ?decide_True, ?decide_False by done;
    by rewrite IH.
Qed.

Lemma filter_id {A} (P : A → Prop) `{∀ x, Decision (P x)} (l : list A) :
  (∀ x, x ∈ l → P x) → filter P l = l.
Proof.
  induction l as [|x l IH]; intros Hall; [done|].
  rewrite filter_cons, decide_True by (apply Hall; left).
  f_equal. apply IH. intros y Hy. apply Hall. by right.
Qed.

Lemma first_occurrences_filter (P : str → Prop) `{∀ x, Decision (P x)} l :
  filter P (first_occurrences l) = first_occurrences (filter P l).
Proof.
  induction l as [|x l IH]; [done|]. simpl.
  rewrite !filter_cons.
  destruct (decide (P x)) as [HP|HP]; simpl.
  - by rewrite filter_comm, IH.
  - rewrite filter_comm, IH. apply filter_id.
    intros y Hy%first_occurrences_subset ->.
    by apply list_elem_of_filter in Hy as [? _].
Qed.

(** Appending what is absent, one element after the other, appends the
    first occurrences of what was absent. *)
Lemma foldl_add_absent acc l :
  foldl add_absent acc l
  = acc ++ first_occurrences (filter (λ x, x ∉ acc) l).
Proof.
  revert acc. induction l as [|x l IH]; intros acc; simpl.
  - by rewrite app_nil_r.
  - rewrite IH, filter_cons. unfold add_absent.
    case_bool_decide as Hx.
    + by rewrite decide_False by tauto.
    + rewrite decide_True by done. simpl.
      rewrite <-app_assoc. simpl. do 2 f_equal.
      rewrite first_occurrences_filter, list_filter_filter.
      f_equal. apply list_filter_iff. intros y.
      rewrite elem_of_app, list_elem_of_singleton. tauto.
Qed.

Lemma foldl_add_absent_nil l : foldl add_absent [] l = first_occurrences l.
Proof.
  rewrite foldl_add_absent. simpl. f_equal. apply filter_id.
  intros x _ ?%elem_of_nil. done.
Qed.

Lemma first_occurrences_nil l : first_occurrences l = [] ↔ l = [].
Proof. by destruct l. Qed.

Lemma convert_row_get d k e a :
  dict_get (convert_row d (k, e)) a
  = if bool_decide (k = a)
    then Some (add_absent (default [] (dict_get d k)) e)
    else dict_get d a.
Proof.
  cbv beta iota zeta delta [convert_row].
  destruct (dict_get d k) as [l|] eqn:Hget; simpl.
  - rewrite Hget. unfold add_absent.
    case_bool_decide as He.
    + case_bool_decide; by simplify_eq.
    + by rewrite dict_get_set.
  - rewrite dict_get_set, bool_decide_eq_true_2 by done.
    rewrite bool_decide_eq_false_2 by (by intros ?%elem_of_nil).
    rewrite !dict_get_set. by case_bool_decide.
Qed.

Lemma convert_row_keys d k e : (convert_row d (k, e)).*1 = add_absent d.*1 k.
Proof.
  cbv beta iota zeta delta [convert_row].
  destruct (dict_get d k) as [l|] eqn:Hget.
  - assert (k ∈ d.*1).
    { destruct (decide (k ∈ d.*1)) as [|Hnot]; [done|].
      apply dict_get_None in Hnot. congruence. }
    rewrite Hget. case_bool_decide.
    + by rewrite add_absent_present.
    + by rewrite dict_set_keys.
  - rewrite dict_get_set, bool_decide_eq_true_2 by done.
    rewrite bool_decide_eq_false_2 by (by intros ?%elem_of_nil).
    by rewrite !dict_set_keys, add_absent_twice.
Qed.

Lemma defaultdict_append_get d k e a :
  dict_get (defaultdict_append d k e) a
  = if bool_decide (k = a)
    then Some (default [] (dict_get d k) ++ [e])
    else dict_get d a.
Proof.
  unfold defaultdict_append.
  destruct (dict_get d k) as [l|] eqn:Hget; simpl;
    rewrite !dict_get_set; by case_bool_decide.
Qed.

Lemma defaultdict_append_keys d k e :
  (defaultdict_append d k e).*1 = add_absent d.*1 k.
Proof.
  unfold defaultdict_append.
  destruct (dict_get d k) as [l|] eqn:Hget.
  - by rewrite dict_set_keys.
  - by rewrite !dict_set_keys, add_absent_twice.
Qed.

Lemma expansions_for_cons a k e rows :
  expansions_for a ((k, e) :: rows)
  = if bool_decide (k = a) then e :: expansions_for a rows
    else expansions_for a rows.
Proof.
  unfold expansions_for. rewrite filter_cons. simpl.
  case_bool_decide; [by rewrite decide_True|by rewrite decide_False].
Qed.

Lemma convert_fold_get d rows a :
  dict_get (foldl convert_row d rows) a
  = match dict_get d a, expansions_for a rows with
    | None, [] => None
    | o, es => Some (foldl add_absent (default [] o) es)
    end.
Proof.
  revert d. induction rows as [|[k e] rows IH]; intros d.
  - simpl. by destruct (dict_get d a).
  - cbn [foldl]. rewrite IH, convert_row_get, expansions_for_cons.
    case_bool_decide as Hk; [subst k|done].
    by destruct (dict_get d a), (expansions_for a rows).
Qed.

Lemma convert_fold_keys d rows :
  (foldl convert_row d rows).*1 = foldl add_absent d.*1 rows.*1.
Proof.
  revert d. induction rows as [|[k e] rows IH]; intros d; [done|].
  cbn [foldl]. by rewrite IH, convert_row_keys.
Qed.

(** X11: the converter of the data frame lists, for each abbreviation
    of the rows and no other, the first occurrence of each of its
    expansions, in row order; and it lists the abbreviations in the
    order of their first rows. *)
Theorem convert_table_is_first_occurrences (df : list (str * str)) :
  (∀ a, dict_get (_convert_abbrev_expansion_table_to_dict df) a
        = match expansions_for a df with
          | [] => None
          | es => Some (first_occurrences es)
          end)
  ∧ (_convert_abbrev_expansion_table_to_dict df).*1
    = first_occurrences df.*1.
Proof.
  unfold _convert_abbrev_expansion_table_to_dict. split.
  - intros a. rewrite convert_fold_get. cbn [dict_get default].
    destruct (expansions_for a df) as [|e es] eqn:Hes; [done|].
    by rewrite foldl_add_absent_nil.
  - by rewrite convert_fold_keys, foldl_add_absent_nil.
Qed.

Lemma read_rows_get d rows a :
  ∃ d', read_rows d (fields <$> rows) = Ret d'
    ∧ dict_get d' a
      = match dict_get d a, expansions_for a rows with
        | None, [] => None
        | o, es => Some (default [] o ++ es)
        end
    ∧ d'.*1 = foldl add_absent d.*1 rows.*1.
Proof.
  revert d. induction rows as [|[k e] rows IH]; intros d.
  - exists d. split_and!; [done| |done]. simpl.
    destruct (dict_get d a); by rewrite ?app_nil_r.
  - destruct (IH (defaultdict_append d k e)) as (d' & Hrun & Hget & Hkeys).
    exists d'. split_and!; [done| |].
    + rewrite Hget, defaultdict_append_get, expansions_for_cons.
      case_bool_decide as Hk; [subst k|done].
      destruct (dict_get d a), (expansions_for a rows);
        simpl; by rewrite <-?app_assoc.
    + by rewrite Hkeys, defaultdict_append_keys.
Qed.

(** X12: from rows of two fields the builder's loader lists, for each
    abbreviation of the rows and no other, the expansions of all its
    rows, in row order and as often as they come; and it lists the
    abbreviations in the order of their first rows. *)
Theorem split_generators_keeps_every_row (rows : list (str * str)) :
  ∃ d, _split_generators_dict (fields <$> rows) = Ret d
    ∧ (∀ a, dict_get d a
            = match expansions_for a rows with
              | [] => None
              | es => Some es
              end)
    ∧ d.*1 = first_occurrences rows.*1.
Proof.
  unfold _split_generators_dict.
  destruct (read_rows_get [] rows []) as (d & Hrun & _ & Hkeys).
  exists d. split_and!; [done| |by rewrite Hkeys, foldl_add_absent_nil].
  intros a. destruct (read_rows_get [] rows a) as (d' & Hrun' & Hget & _).
  rewrite Hrun in Hrun'. injection Hrun' as <-.
  rewrite Hget. simpl. by destruct (expansions_for a rows).
Qed.

(** X13: the loader raises [ValueError] exactly when some row of the
    file does not have two fields, and builds a dictionary otherwise. *)
Theorem split_generators_raises_on_arity (reader : list (list str)) :
  (_split_generators_dict reader = Raise ValueError
   ↔ Exists (λ row, length row ≠ 2) reader)
  ∧ (Forall (λ row, length row = 2) reader
     ↔ ∃ d, _split_generators_dict reader = Ret d).
Proof.
  unfold _split_generators_dict. generalize ([] : dictionary).
  induction reader as [|row reader IH]; intros d.
  - split; split; try done.
    + by intros ?%Exists_nil.
    + intros _. by exists d.
  - cbn [read_rows].
    destruct row as [|a [|e [|x row]]]; cbn.
    1,2,4: split; split; try done;
      [intros _; left; simpl; lia
      |intros [Hlen _]%Forall_cons; simpl in Hlen; lia
      |by intros [? ?]].
    destruct (IH (defaultdict_append d a e)) as [Hraise Hret].
    rewrite Hraise, <-Hret, Exists_cons, Forall_cons. simpl.
    split; [split; [by right|by intros [?|?]]|tauto].
Qed.

Lemma read_rows_cons d k e reader :
  read_rows d (fields (k, e) :: reader)
  = read_rows (defaultdict_append d k e) reader.
Proof. done. Qed.

Lemma convert_row_as_append d k e :
  e ∉ default [] (dict_get d k) →
  convert_row d (k, e) = defaultdict_append d k e.
Proof.
  intros He. cbv beta iota zeta delta [convert_row defaultdict_append].
  destruct (dict_get d k) as [l|] eqn:Hget; simpl in *.
  - by rewrite Hget, bool_decide_eq_false_2.
  - rewrite dict_get_set, bool_decide_eq_true_2 by done.
    by rewrite bool_decide_eq_false_2.
Qed.

(** X14: on a file where no row comes twice the builder's loader and
    the converter of the data frame build the same dictionary. *)
Theorem loaders_agree_without_repeats (rows : list (str * str)) :
  NoDup rows →
  _split_generators_dict (fields <$> rows)
  = Ret (_convert_abbrev_expansion_table_to_dict rows).
Proof.
  unfold _split_generators_dict, _convert_abbrev_expansion_table_to_dict.
  assert (Hgen : ∀ d : dictionary,
            NoDup rows →
            (∀ k e, (k, e) ∈ rows → e ∉ default [] (dict_get d k)) →
            read_rows d (fields <$> rows) = Ret (foldl convert_row d rows)).
  { induction rows as [|[k e] rows IH]; intros d Hnodup Hfresh; [done|].
    apply NoDup_cons in Hnodup as [Hnotin Hnodup].
    rewrite fmap_cons, read_rows_cons. cbn [foldl].
    rewrite convert_row_as_append by (apply Hfresh; left).
    apply IH; [done|].
    intros k' e' Hin. rewrite defaultdict_append_get.
    case_bool_decide as Hk.
    - subst k'. simpl. rewrite elem_of_app, list_elem_of_singleton.
      intros [Hold| ->]; [|done].
      by apply (Hfresh k e'); [right|].
    - apply Hfresh. by right. }
  intros Hnodup. apply Hgen; [done|]. intros k e _. simpl.
  by intros ?%elem_of_nil.
Qed.

(** ** The extraction of snippets *)

Section ExtractionProperties.

Context {bytes : Type}.
Variable decode : bytes → outcome str.
Variable lower : str → str.
Variable unicode_isspace : char → bool.

Lemma split_on_from_length sep skip current (s : str) :
  0 < length (split_on_from sep skip current s) ≤ S (length s).
Proof.
  revert skip current. induction s as [|c s IH]; intros skip current.
  - simpl. lia.
  - cbn [split_on_from]. destruct skip as [|skip].
    + case_bool_decide.
      * specialize (IH (length sep - 1) []). simpl. lia.
      * specialize (IH 0 (current ++ [c])). simpl. lia.
    + specialize (IH skip current). simpl. lia.
Qed.

Lemma sentences_of_length (text : str) :
  0 < length (sentences_of text) ≤ S (length text).
Proof.
  unfold sentences_of, split_on.
  pose proof (split_on_from_length (py ". ") 0 []
    ((λ c, if bool_decide (c = 10%N) then space else c) <$> text)) as Hlen.
  by rewrite length_fmap in Hlen.
Qed.

Lemma extract_snippets_unfold fuel (doc : c4_doc) max g text :
  decode (doc_text doc) = Ret text →
  extract_snippets decode lower unicode_isspace fuel doc max g
  = snippets_loop decode lower unicode_isspace fuel (doc_url doc) max
      (sentences_of text) 0 0 g.
Proof. intros Hdecode. unfold extract_snippets. by rewrite Hdecode. Qed.

Lemma randint_Ret low high g num g' :
  randint low high g = Ret (num, g') →
  (low < high ∧ high ≤ 2 ^ 63 ∧ low ≤ num < high)%Z.
Proof.
  unfold randint.
  destruct (Z.leb_spec high low), (Z.ltb_spec low (- 2 ^ 63)),
    (Z.ltb_spec (2 ^ 63) high); simpl; try done.
  intros [= <- _].
  pose proof (Z.mod_pos_bound (Z.of_nat (np_integers g 0)) (high - low)).
  lia.
Qed.

Lemma randint_ok low high g :
  (low < high)%Z → (- 2 ^ 63 ≤ low)%Z → (high ≤ 2 ^ 63)%Z →
  ∃ num g', randint low high g = Ret (num, g').
Proof.
  intros. unfold randint.
  destruct (Z.leb_spec high low), (Z.ltb_spec low (- 2 ^ 63)),
    (Z.ltb_spec (2 ^ 63) high); simpl; try lia.
  by eexists _, _.
Qed.

(** A turn of the loop under a valid maximum: it draws how many
    sentences to take, at least one, joins them, may append a period,
    and goes on after them. *)
Lemma snippets_loop_turn fuel (url : bytes) max sentences idx id g u :
  idx < length sentences →
  (1 ≤ max < 2 ^ 63)%Z →
  decode url = Ret u →
  ∃ num g' snippet,
    1 ≤ num ≤ Z.to_nat max
    ∧ (let joined := join (py ". ") (take num (drop idx sentences)) in
       snippet = joined
       ∨ endswith_period joined = false ∧ snippet = joined ++ py ".")
    ∧ snippets_loop decode lower unicode_isspace (S fuel) url max
        sentences idx id g
      = (rest ← snippets_loop decode lower unicode_isspace fuel url max
                  sentences (idx + num) (id + 1) g';
         Ret (if 1024 <? length (strip unicode_isspace (lower snippet))
              then rest
              else (snippet_key u id,
                    strip unicode_isspace (lower snippet)) :: rest)).
Proof.
  intros Hidx Hmax Hurl. cbn [snippets_loop].
  destruct (Nat.ltb_spec idx (length sentences)) as [_|?]; [|lia].
  destruct (randint_ok 1 (max + 1) g) as (num & g1 & Hdraw); [lia..|].
  rewrite Hdraw. apply randint_Ret in Hdraw. cbn [mbind outcome_bind].
  set (joined := join (py ". ")
                   (take (Z.to_nat num) (drop idx sentences))).
  destruct (endswith_period joined) eqn:Hend.
  - rewrite Hurl. cbn [mbind outcome_bind].
    exists (Z.to_nat num), g1, joined. split_and!; [lia|lia|by left|done].
  - unfold np_uniform.
    destruct (Qltb (np_uniforms g1 0) (1 # 2));
      rewrite Hurl; cbn [mbind outcome_bind].
    + eexists (Z.to_nat num), _, (joined ++ py ".").
      split_and!; [lia|lia|by right|done].
    + eexists (Z.to_nat num), _, joined.
      split_and!; [lia|lia|by left|done].
Qed.

(** A turn that returns has drawn under a valid maximum and has decoded
    the url. *)
Lemma snippets_loop_returns fuel (url : bytes) max sentences idx id g l :
  idx < length sentences →
  snippets_loop decode lower unicode_isspace fuel url max sentences idx id g
  = Ret l →
  (1 ≤ max < 2 ^ 63)%Z ∧ ∃ u, decode url = Ret u.
Proof.
  intros Hidx. destruct fuel as [|fuel]; [done|]. cbn [snippets_loop].
  destruct (Nat.ltb_spec idx (length sentences)) as [_|?]; [|lia].
  destruct (randint 1 (max + 1) g) as [[num g1]|exc|] eqn:Hdraw; [|done..].
  apply randint_Ret in Hdraw. cbn [mbind outcome_bind].
  destruct (if endswith_period _ then _ else _) as [snippet' g2].
  destruct (decode url) as [u|exc|]; [|done..].
  intros _. split; [lia|by exists u].
Qed.

Lemma snippets_loop_exit fuel (url : bytes) max sentences idx id g :
  length sentences ≤ idx →
  snippets_loop decode lower unicode_isspace (S fuel) url max sentences
    idx id g = Ret [].
Proof.
  intros Hidx. cbn [snippets_loop].
  by destruct (Nat.ltb_spec idx (length sentences)); [lia|].
Qed.

Lemma lstrip_head (s : str) c :
  head (lstrip unicode_isspace s) = Some c → isspace unicode_isspace c = false.
Proof.
  induction s as [|c' s IH]; [done|]. simpl.
  destruct (isspace unicode_isspace c') eqn:Hc'; [done|].
  by intros [= <-].
Qed.

Lemma lstrip_suffix (s : str) : lstrip unicode_isspace s `suffix_of` s.
Proof.
  induction s as [|c s IH]; [done|]. simpl.
  destruct (isspace unicode_isspace c); [by apply suffix_cons_r|done].
Qed.

Lemma strip_stripped (s : str) : stripped unicode_isspace (strip unicode_isspace s).
Proof.
  unfold stripped, strip. split; intros c.
  - rewrite head_reverse.
    destruct (lstrip_suffix (reverse (lstrip unicode_isspace s))) as [k Hk].
    intros Hlast.
    assert (last (reverse (lstrip unicode_isspace s)) = Some c) as Hc.
    { rewrite Hk. by apply last_app_Some; left. }
    rewrite last_reverse in Hc. by apply lstrip_head in Hc.
  - rewrite last_reverse. apply lstrip_head.
Qed.

Lemma py_inj s1 s2 : py s1 = py s2 → s1 = s2.
Proof.
  unfold py. intros Heq.
  rewrite <-(string_of_list_ascii_of_string s1),
    <-(string_of_list_ascii_of_string s2). f_equal.
  revert Heq. generalize (list_ascii_of_string s1) (list_ascii_of_string s2).
  induction l as [|a1 l1 IH]; intros [|a2 l2]; try done.
  intros [= Ha Hl]. f_equal; [|by apply IH].
  by rewrite <-(ascii_N_embedding a1), <-(ascii_N_embedding a2), Ha.
Qed.

Lemma decimal_inj n1 n2 : decimal n1 = decimal n2 → n1 = n2.
Proof.
  unfold decimal. intros Heq%py_inj.
  apply DecimalNat.Unsigned.to_uint_inj.
  apply (f_equal NilEmpty.uint_of_string) in Heq.
  rewrite !NilEmpty.usu in Heq. by injection Heq.
Qed.

Lemma snippet_key_inj (u : str) n1 n2 :
  snippet_key u n1 = snippet_key u n2 → n1 = n2.
Proof.
  unfold snippet_key. intros Heq.
  by apply app_inv_head, app_inv_head, app_inv_head, decimal_inj in Heq.
Qed.

(** What the loop yields: stripped snippets of 1024 characters at most,
    under the keys of snippet ids that grow. *)
Lemma snippets_loop_yields fuel (url : bytes) max sentences idx id g l u :
  decode url = Ret u →
  snippets_loop decode lower unicode_isspace fuel url max sentences idx id g
  = Ret l →
  Forall (λ pair, length pair.2 ≤ 1024 ∧ stripped unicode_isspace pair.2) l
  ∧ ∃ ids, l.*1 = snippet_key u <$> ids
      ∧ StronglySorted lt ids
      ∧ Forall (λ n, id ≤ n < id + (length sentences - idx)) ids.
Proof.
  intros Hurl. revert idx id g l.
  induction fuel as [|fuel IH]; intros idx id g l Hrun; [done|].
  destruct (decide (idx < length sentences)) as [Hlt|Hge].
  - destruct (snippets_loop_returns _ _ _ _ _ _ _ _ Hlt Hrun) as [Hmax _].
    destruct (snippets_loop_turn fuel url max sentences idx id g u Hlt Hmax
                Hurl) as (num & g' & snippet & Hnum & _ & Hturn).
    rewrite Hturn in Hrun.
    destruct (snippets_loop decode lower unicode_isspace fuel url max
                sentences (idx + num) (id + 1) g') as [rest| |] eqn:Hrest;
      [|done..].
    cbn [mbind outcome_bind] in Hrun. injection Hrun as <-.
    destruct (IH _ _ _ _ Hrest) as (Hall & ids & Hkeys & Hsorted & Hids).
    assert (Hwider : Forall (λ n, id ≤ n < id + (length sentences - idx)) ids).
    { eapply Forall_impl; [exact Hids|]. simpl. lia. }
    destruct (Nat.ltb_spec 1024 (length (strip unicode_isspace (lower snippet)))).
    + split; [done|]. by exists ids.
    + split.
      * constructor; [|done]. simpl. split; [lia|apply strip_stripped].
      * exists (id :: ids). split_and!.
        -- by rewrite !fmap_cons, Hkeys.
        -- constructor; [done|]. eapply Forall_impl; [exact Hids|].
           simpl. lia.
        -- constructor; [lia|done].
  - rewrite snippets_loop_exit in Hrun by lia. injection Hrun as <-.
    split; [done|]. exists []. split_and!; [done|constructor|done].
Qed.

Lemma snippets_loop_ends fuel (url : bytes) max sentences idx id g u :
  (1 ≤ max < 2 ^ 63)%Z →
  decode url = Ret u →
  length sentences - idx < fuel →
  ∃ l, snippets_loop decode lower unicode_isspace fuel url max sentences
         idx id g = Ret l
       ∧ length l ≤ length sentences - idx.
Proof.
  intros Hmax Hurl. revert idx id g.
  induction fuel as [|fuel IH]; intros idx id g Hfuel; [lia|].
  destruct (decide (idx < length sentences)) as [Hlt|Hge].
  - destruct (snippets_loop_turn fuel url max sentences idx id g u Hlt Hmax
                Hurl) as (num & g' & snippet & Hnum & _ & ->).
    destruct (IH (idx + num) (id + 1) g') as (rest & -> & Hrest); [lia|].
    cbn [mbind outcome_bind]. eexists. split; [done|].
    destruct (1024 <? _); simpl; lia.
  - rewrite snippets_loop_exit by lia. exists []. split; [done|simpl; lia].
Qed.

Lemma StronglySorted_lt_NoDup (ids : list nat) :
  StronglySorted lt ids → NoDup ids.
Proof.
  induction 1 as [|n ids _ IH Hall]; constructor; [|done].
  rewrite Forall_forall in Hall. intros Hin%Hall. lia.
Qed.

(** X15: with a maximum below 1 the extraction of a document whose
    text decodes raises [ValueError] at its first draw, before it has
    yielded a snippet. *)
Theorem maximum_below_one_raises (fuel : nat) (doc : c4_doc) (max : Z)
    (g : np_rng) (text : str) :
  (max < 1)%Z →
  decode (doc_text doc) = Ret text →
  0 < fuel →
  extract_snippets decode lower unicode_isspace fuel doc max g
  = Raise ValueError.
Proof.
  intros Hmax Htext Hfuel.
  rewrite (extract_snippets_unfold _ _ _ _ _ Htext).
  destruct fuel as [|fuel]; [lia|]. cbn [snippets_loop].
  pose proof (sentences_of_length text).
  destruct (Nat.ltb_spec 0 (length (sentences_of text))); [|lia].
  unfold randint.
  by destruct (Z.leb_spec (max + 1) 1); [|lia].
Qed.

(** X16: with a maximum from 1 up and a document that decodes, the
    extraction ends within one turn per sentence and yields at most one
    snippet per sentence. *)
Theorem extraction_ends (fuel : nat) (doc : c4_doc) (max : Z) (g : np_rng)
    (text u : str) :
  (1 ≤ max < 2 ^ 63)%Z →
  decode (doc_text doc) = Ret text →
  decode (doc_url doc) = Ret u →
  length text + 1 < fuel →
  ∃ snippets,
    extract_snippets decode lower unicode_isspace fuel doc max g = Ret snippets
    ∧ length snippets ≤ length (sentences_of text).
Proof.
  intros Hmax Htext Hurl Hfuel.
  rewrite (extract_snippets_unfold _ _ _ _ _ Htext).
  pose proof (sentences_of_length text).
  destruct (snippets_loop_ends fuel (doc_url doc) max (sentences_of text) 0 0
              g u Hmax Hurl) as (l & Hrun & Hlen); [lia|].
  exists l. split; [done|lia].
Qed.

Lemma extract_snippets_Ret fuel (doc : c4_doc) max g snippets :
  extract_snippets decode lower unicode_isspace fuel doc max g = Ret snippets →
  ∃ text u,
    decode (doc_text doc) = Ret text
    ∧ decode (doc_url doc) = Ret u
    ∧ snippets_loop decode lower unicode_isspace fuel (doc_url doc) max
        (sentences_of text) 0 0 g = Ret snippets.
Proof.
  intros Hrun.
  destruct (decode (doc_text doc)) as [text| |] eqn:Htext;
    [|by unfold extract_snippets in Hrun; rewrite Htext in Hrun..].
  rewrite (extract_snippets_unfold _ _ _ _ _ Htext) in Hrun.
  pose proof (sentences_of_length text) as [Hpos _].
  destruct (snippets_loop_returns _ _ _ _ _ _ _ _ Hpos Hrun) as [_ [u Hurl]].
  by exists text, u.
Qed.

(** X17: every snippet the extraction yields has 1024 characters at
    most and has no whitespace at either end. *)
Theorem snippets_are_short_and_stripped (fuel : nat) (doc : c4_doc) (max : Z)
    (g : np_rng) (snippets : list (str * str)) :
  extract_snippets decode lower unicode_isspace fuel doc max g = Ret snippets →
  ∀ key snippet, (key, snippet) ∈ snippets →
    length snippet ≤ 1024 ∧ stripped unicode_isspace snippet.
Proof.
  intros (text & u & _ & Hurl & Hrun)%extract_snippets_Ret key snippet Hin.
  destruct (snippets_loop_yields _ _ _ _ _ _ _ _ _ Hurl Hrun) as [Hall _].
  rewrite Forall_forall in Hall. apply (Hall _ Hin).
Qed.

(** X18: the keys of the snippets of a document are
    [url=<url>,snippet_id=<n>] for ids [n] that grow from one snippet to
    the next and stay below the number of sentences; so no two snippets
    of a document have the same key. *)
Theorem snippet_keys_are_distinct (fuel : nat) (doc : c4_doc) (max : Z)
    (g : np_rng) (snippets : list (str * str)) :
  extract_snippets decode lower unicode_isspace fuel doc max g = Ret snippets →
  NoDup snippets.*1
  ∧ ∃ text u ids,
      decode (doc_text doc) = Ret text
      ∧ decode (doc_url doc) = Ret u
      ∧ snippets.*1 = snippet_key u <$> ids
      ∧ StronglySorted lt ids
      ∧ Forall (λ n, n < length (sentences_of text)) ids.
Proof.
  intros (text & u & Htext & Hurl & Hrun)%extract_snippets_Ret.
  destruct (snippets_loop_yields _ _ _ _ _ _ _ _ _ Hurl Hrun)
    as (_ & ids & Hkeys & Hsorted & Hids).
  split.
  - rewrite Hkeys. apply NoDup_fmap_2_strong.
    + intros n1 n2 _ _. apply snippet_key_inj.
    + by apply StronglySorted_lt_NoDup.
  - exists text, u, ids. split_and!; [done..|].
    eapply Forall_impl; [exact Hids|]. simpl. lia.
Qed.

(** The windows of sentences the loop takes tile the sentences from the
    cursor on, and each snippet is made of the window of its id. *)
Lemma snippets_loop_windows fuel (url : bytes) max sentences idx id g l u :
  decode url = Ret u →
  snippets_loop decode lower unicode_isspace fuel url max sentences idx id g
  = Ret l →
  ∃ windows,
    concat windows = drop idx sentences
    ∧ Forall (λ window, 1 ≤ length window ≤ Z.to_nat max) windows
    ∧ ∀ key snippet, (key, snippet) ∈ l →
        ∃ n window,
          key = snippet_key u (id + n)
          ∧ windows !! n = Some window
          ∧ (snippet = strip unicode_isspace (lower (join (py ". ") window))
             ∨ endswith_period (join (py ". ") window) = false
               ∧ snippet = strip unicode_isspace
                             (lower (join (py ". ") window ++ py "."))).
Proof.
  intros Hurl. revert idx id g l.
  induction fuel as [|fuel IH]; intros idx id g l Hrun; [done|].
  destruct (decide (idx < length sentences)) as [Hlt|Hge].
  - destruct (snippets_loop_returns _ _ _ _ _ _ _ _ Hlt Hrun) as [Hmax _].
    destruct (snippets_loop_turn fuel url max sentences idx id g u Hlt Hmax
                Hurl) as (num & g' & snippet & Hnum & Hsnippet & Hturn).
    rewrite Hturn in Hrun.
    destruct (snippets_loop decode lower unicode_isspace fuel url max
                sentences (idx + num) (id + 1) g') as [rest| |] eqn:Hrest;
      [|done..].
    cbn [mbind outcome_bind] in Hrun. injection Hrun as <-.
    destruct (IH _ _ _ _ Hrest) as (windows & Htile & Hsizes & Hmade).
    exists (take num (drop idx sentences) :: windows). split_and!.
    + simpl. by rewrite Htile, <-drop_drop, take_drop.
    + constructor; [|done]. rewrite length_take, length_drop. lia.
    + assert (Hrest_made : ∀ key snip, (key, snip) ∈ rest →
        ∃ n window,
          key = snippet_key u (id + n)
          ∧ (take num (drop idx sentences) :: windows) !! n = Some window
          ∧ (snip = strip unicode_isspace (lower (join (py ". ") window))
             ∨ endswith_period (join (py ". ") window) = false
               ∧ snip = strip unicode_isspace
                          (lower (join (py ". ") window ++ py ".")))).
      { intros key snip (n & window & -> & Hwindow & Hform)%Hmade.
        exists (S n), window. split_and!; [f_equal; lia|done|done]. }
      destruct (1024 <? _); [done|].
      intros key snip [[= -> ->]|Hin]%elem_of_cons; [|by apply Hrest_made].
      exists 0, (take num (drop idx sentences)).
      split_and!; [f_equal; lia|done|].
      destruct Hsnippet as [->|[Hend ->]]; [by left|by right].
  - rewrite snippets_loop_exit in Hrun by lia. injection Hrun as <-.
    exists []. split_and!; [by rewrite drop_ge by lia|done|].
    by intros key snip ?%elem_of_nil.
Qed.

(** X19: the extraction takes the sentences in windows that follow one
    another without a gap or an overlap, each of 1 sentence at least and
    of the maximum at most. The snippet yielded under id [n] is window
    [n] joined, lowercased and stripped, a period appended before that
    or not, and appended only if the joined text does not end with
    one. *)
Theorem extraction_tiles_the_sentences (fuel : nat) (doc : c4_doc) (max : Z)
    (g : np_rng) (snippets : list (str * str)) :
  extract_snippets decode lower unicode_isspace fuel doc max g = Ret snippets →
  ∃ text u windows,
    decode (doc_text doc) = Ret text
    ∧ decode (doc_url doc) = Ret u
    ∧ concat windows = sentences_of text
    ∧ Forall (λ window, 1 ≤ length window ≤ Z.to_nat max) windows
    ∧ ∀ key snippet, (key, snippet) ∈ snippets →
        ∃ n window,
          key = snippet_key u n
          ∧ windows !! n = Some window
          ∧ (snippet = strip unicode_isspace (lower (join (py ". ") window))
             ∨ endswith_period (join (py ". ") window) = false
               ∧ snippet = strip unicode_isspace
                             (lower (join (py ". ") window ++ py "."))).
Proof.
  intros (text & u & Htext & Hurl & Hrun)%extract_snippets_Ret.
  destruct (snippets_loop_windows _ _ _ _ _ _ _ _ _ Hurl Hrun)
    as (windows & Htile & Hsizes & Hmade).
  exists text, u, windows. by split_and!.
Qed.

Lemma join_cons sep (piece : str) pieces :
  pieces ≠ [] → join sep (piece :: pieces) = piece ++ sep ++ join sep pieces.
Proof. by destruct pieces. Qed.

Lemma split_on_from_join (sep : str) skip current (s : str) :
  sep ≠ [] →
  skip ≤ length s →
  join sep (split_on_from sep skip current s) = current ++ drop skip s.
Proof.
  intros Hsep. revert skip current.
  induction s as [|c s IH]; intros skip current Hskip.
  - cbn [split_on_from join]. by rewrite drop_nil, app_nil_r.
  - cbn [split_on_from]. destruct skip as [|skip].
    + case_bool_decide as Hcut.
      * assert (length sep ≤ length (c :: s)) as Hlen.
        { rewrite <-Hcut at 1. rewrite length_take. lia. }
        assert (0 < length sep) by (destruct sep; [done|simpl; lia]).
        rewrite join_cons.
        2:{ pose proof (split_on_from_length sep (length sep - 1) [] s).
            by destruct (split_on_from sep (length sep - 1) [] s);
              [simpl in *; lia|]. }
        rewrite IH by (simpl in Hlen; lia). simpl. f_equal.
        transitivity (take (length sep) (c :: s) ++ drop (length sep) (c :: s));
          [|apply take_drop].
        rewrite Hcut. f_equal.
        destruct (length sep) as [|n]; [lia|]. simpl. by rewrite Nat.sub_0_r.
      * rewrite IH by lia. by rewrite <-app_assoc.
    + rewrite IH by (simpl in Hskip; lia). done.
Qed.

(** X20: the sentences of a text, joined with ". ", are the text with
    its newlines turned into spaces: cutting and joining lose
    nothing. *)
Theorem sentences_join_back (text : str) :
  join (py ". ") (sentences_of text)
  = (λ c, if bool_decide (c = 10%N) then space else c) <$> text.
Proof.
  unfold sentences_of, split_on.
  by rewrite split_on_from_join; [|done|lia].
Qed.

End ExtractionProperties.

(** ** The stages together *)

Lemma substitute_replacements_listed fuel (s : str) rate d g abbreviated
    replacements :
  eval (substitute fuel s rate d) g = Ret (abbreviated, replacements) →
  ∀ pair, pair ∈ replacements → pair ∈ _get_dictionary_pairs d.
Proof.
  intros [g' Hrun]%eval_Ret.
  destruct (extract_accepted s d) as (m & Hextract & Hm & _).
  rewrite (substitute_unfold _ _ _ _ _ _ Hextract) in Hrun.
  case_bool_decide.
  - apply Forall_forall.
    by apply (abbreviate_loop_replacements fuel s d rate m 0 [] [] g
                (abbreviated, replacements) g'
                (λ pair, pair ∈ _get_dictionary_pairs d)).
  - injection Hrun as _ <- _. by intros pair ?%elem_of_nil.
Qed.

(** C9, as the code has it: a snippet that passes the token filter gives
    one record per entry of the replacement list, in order and with
    repetitions, each keyed by its entry, and nothing else, when the
    list is not empty; it gives the one record keyed by the sentinel
    when the list is empty; and every record carries the same key and
    the same two snippets. A record of a replacement is keyed by the
    sentinel pair only when that pair is itself an entry of the list,
    and so a pair of the dictionary: with a dictionary that does not
    list the empty abbreviation for the empty expansion, no record of a
    non-empty list is keyed by the sentinel. With no empty expansion in
    the dictionary the abbreviated snippet is produced. *)
Theorem one_record_per_replacement (key s : str) (rate : Q) (d : dictionary)
    (g : rng) :
  (∀ fuel abbreviated replacements,
     eval (substitute fuel s rate d) g = Ret (abbreviated, replacements) →
     3 ≤ length (split space abbreviated) →
     let payload := (key, {| original_snippet := s;
                             abbreviated_snippet := abbreviated |}) in
     ∃ records,
       eval (reverse_substitution fuel (key, s) rate d) g = Ret records
       ∧ (replacements ≠ [] →
          records = (λ replacement, (replacement, payload)) <$> replacements
          ∧ length records = length replacements)
       ∧ (replacements ≠ [] →
          ∀ record, record ∈ records → record.1 = ([], []) →
            ([], []) ∈ replacements
            ∧ ([], []) ∈ _get_dictionary_pairs d)
       ∧ (replacements ≠ [] → ([], []) ∉ _get_dictionary_pairs d →
          ∀ record, record ∈ records → record.1 ≠ ([], []))
       ∧ (replacements = [] → records = [(([], []), payload)])
       ∧ (∀ record, record ∈ records → record.2 = payload))
  ∧ ((∀ a e, (a, e) ∈ _get_dictionary_pairs d → e ≠ []) →
     ∀ fuel, length s < fuel →
       ∃ abbreviated replacements,
         eval (substitute fuel s rate d) g = Ret (abbreviated, replacements)).
Proof.
  split; [|intros Hfull fuel Hfuel; by apply substitute_terminates].
  intros fuel abbreviated replacements Hrun Hpieces payload.
  pose proof (substitute_replacements_listed _ _ _ _ _ _ _ Hrun) as Hlisted.
  rewrite reverse_substitution_eval, Hrun.
  destruct (Nat.ltb_spec (length (split space abbreviated)) 3); [lia|].
  eexists. split; [done|].
  destruct replacements as [|replacement replacements].
  - split_and!; [done|done|done|done|].
    by intros record ->%list_elem_of_singleton.
  - assert (Hkeyed : ∀ record : (str * str) * (str * WSRSFeatures),
              record ∈ (λ r, (r, payload)) <$> replacement :: replacements →
              record.1 = ([], []) →
              ([], []) ∈ replacement :: replacements
              ∧ ([], []) ∈ _get_dictionary_pairs d).
    { intros record (r & -> & Hr)%list_elem_of_fmap. simpl. intros ->.
      split; [done|by apply Hlisted]. }
    split_and!; [| | |done|].
    + intros _. split; [done|]. simpl. by rewrite length_fmap.
    + intros _. apply Hkeyed.
    + intros _ Hnot record Hin Hsentinel.
      by destruct (Hkeyed record Hin Hsentinel).
    + intros record (r & -> & _)%list_elem_of_fmap. done.
Qed.

Lemma reverse_substitution_same_decisions fuel key (s : str) rate d g1 g2 :
  same_decisions rate g1 g2 →
  eval (reverse_substitution fuel (key, s) rate d) g1
  = eval (reverse_substitution fuel (key, s) rate d) g2.
Proof.
  intros Hsame. rewrite !reverse_substitution_eval.
  destruct (extract_spec s d) as (m & Hextract & _).
  assert (eval (substitute fuel s rate d) g1
          = eval (substitute fuel s rate d) g2) as ->; [|done].
  unfold eval. rewrite !(substitute_unfold _ _ _ _ _ _ Hextract).
  case_bool_decide; [|done].
  by apply abbreviate_loop_same_decisions.
Qed.

(** X21: at a rate of 1 or more, and at a rate of 0 or less, what
    reverse substitution yields does not depend on the uniform draws:
    two generators that shuffle alike give the same records. *)
Theorem certain_rates_ignore_uniform_draws (fuel : nat) (key s : str)
    (rate : Q) (d : dictionary) (g1 g2 : rng) :
  rng_ok g1 →
  rng_ok g2 →
  (∀ k, py_random g1 k = py_random g2 k) →
  (1 <= rate)%Q ∨ (rate <= 0)%Q →
  eval (reverse_substitution fuel (key, s) rate d) g1
  = eval (reverse_substitution fuel (key, s) rate d) g2.
Proof.
  intros Hg1 Hg2 Hpy Hrate. apply reverse_substitution_same_decisions.
  split; [done|]. intros k.
  destruct Hrate as [Hone|Hzero].
  - by rewrite !always_below_rate.
  - assert (Hnever : ∀ g, rng_ok g → Qltb (np_random g k) rate = false).
    { intros g Hg. unfold Qltb. apply negb_false_iff, Qle_bool_iff.
      eapply Qle_trans; [done|apply Hg]. }
    by rewrite !Hnever.
Qed.

(** X22: reverse substitution after extraction. Every record made from
    an extracted snippet carries the key of that snippet, the snippet
    itself, which has 1024 characters at most and no whitespace at
    either end, and an abbreviated snippet with two spaces at least;
    and it is keyed by the sentinel pair or by a pair of the
    dictionary. *)
Theorem records_of_extracted_snippets {bytes : Type}
    (decode : bytes → outcome str) (lower : str → str)
    (unicode_isspace : char → bool) (fuel : nat) (doc : c4_doc) (max : Z)
    (gx : np_rng) (snippets : list (str * str)) (key s : str) (fuel' : nat)
    (rate : Q) (d : dictionary) (g : rng)
    (records : list ((str * str) * (str * WSRSFeatures))) :
  extract_snippets decode lower unicode_isspace fuel doc max gx = Ret snippets →
  (key, s) ∈ snippets →
  eval (reverse_substitution fuel' (key, s) rate d) g = Ret records →
  ∀ pair key' features, (pair, (key', features)) ∈ records →
    key' = key
    ∧ original_snippet features = s
    ∧ length s ≤ 1024
    ∧ stripped unicode_isspace s
    ∧ 2 ≤ length (filter (λ c, c = space) (abbreviated_snippet features))
    ∧ (pair = ([], []) ∨ pair ∈ _get_dictionary_pairs d).
Proof.
  intros (text & u & _ & Hurl & Hloop)%extract_snippets_Ret Hin Hrun.
  destruct (snippets_loop_yields decode lower unicode_isspace _ _ _ _ _ _ _ _
              _ Hurl Hloop) as [Hall _].
  rewrite Forall_forall in Hall. destruct (Hall _ Hin) as [Hshort Hstripped].
  rewrite reverse_substitution_eval in Hrun.
  destruct (eval (substitute fuel' s rate d) g)
    as [[abbreviated replacements]| |] eqn:Hsub; [|done..].
  pose proof (substitute_replacements_listed _ _ _ _ _ _ _ Hsub) as Hlisted.
  injection Hrun as <-. rewrite length_split.
  destruct (Nat.ltb_spec (S (length (filter (λ c, c = space) abbreviated))) 3);
    [by intros ??? ?%elem_of_nil|].
  intros pair key' features [Hsentinel|Hreplaced]%elem_of_app.
  - destruct replacements; [|by apply elem_of_nil in Hsentinel].
    apply list_elem_of_singleton in Hsentinel as [= -> -> ->].
    simpl. split_and!; [done|done|done|done|lia|by left].
  - apply list_elem_of_fmap in Hreplaced as (r & [= -> -> ->] & Hr).
    simpl. split_and!; [done|done|done|done|lia|right; by apply Hlisted].
Qed.

End WSRS.

(** * The properties at the inputs of the tests *)

Lemma constant_rng_ok : rng_ok (constant_rng 0).
Proof. intros k. simpl. split; [apply Qle_refl|reflexivity]. Defined.

Lemma test_dictionary_full a e :
  (a, e) ∈ _get_dictionary_pairs test_dictionary → e ≠ [].
Proof.
  intros Hin. apply list_elem_of_In in Hin. simpl in Hin.
  destruct Hin as [[= <- <-]|[[= <- <-]|[]]]; discriminate.
Defined.

Lemma test_dictionary_short a e :
  (a, e) ∈ _get_dictionary_pairs test_dictionary → length a ≤ length e.
Proof.
  intros Hin. apply list_elem_of_In in Hin. simpl in Hin.
  destruct Hin as [[= <- <-]|[[= <- <-]|[]]]; vm_compute; lia.
Defined.

Lemma sample_caps_group_witness :
  sample_snippets_by_replacement ((py "pt", py "patient"), three_records) 2
  = take 2 three_records.
Proof.
  destruct (sample_caps_group ((py "pt", py "patient"), three_records) 2)
    as (_ & Hkept & _); [lia|exact Hkept].
Defined.

Lemma sample_negative_cap_first_witness :
  sample_snippets_by_replacement ((py "pt", py "patient"), three_records) (-1)
  = take 1 three_records.
Proof.
  apply (sample_negative_cap_first (py "pt", py "patient")). lia.
Defined.

Lemma test_snippet_is_abbreviated_witness :
  eval (substitute ascii_table 38 test_snippet 1 test_dictionary)
    (constant_rng 0)
  = Ret (py "the pt is in the er.",
         [(py "pt", py "patient"); (py "er", py "emergency room")]).
Proof.
  destruct (test_snippet_is_abbreviated ascii_table) as [_ Hrun].
  apply (Hrun (constant_rng 0) 38); [exact constant_rng_ok|vm_compute; lia].
Defined.

Lemma rate_zero_keeps_snippet_witness :
  eval (reverse_substitution ascii_table 38 (test_key, test_snippet) 0
          test_dictionary) (constant_rng 0)
  = Ret [(([], []), (test_key, {| original_snippet := test_snippet;
                                  abbreviated_snippet := test_snippet |}))].
Proof.
  apply rate_zero_keeps_snippet;
    [exact constant_rng_ok|reflexivity|vm_compute; lia|vm_compute; lia].
Defined.

Lemma one_record_per_replacement_witness :
  ∃ records,
    eval (reverse_substitution ascii_table 38 (test_key, test_snippet) 1
            test_dictionary) (constant_rng 0) = Ret records
    ∧ length records = 2.
Proof.
  destruct (one_record_per_replacement ascii_table test_key test_snippet 1
              test_dictionary (constant_rng 0)) as [Hrecords Hends].
  destruct (Hends test_dictionary_full 38) as (abbreviated & replacements & _);
    [vm_compute; lia|].
  destruct (Hrecords 38 (py "the pt is in the er.")
              [(py "pt", py "patient"); (py "er", py "emergency room")])
    as (records & Hrun & Hmany & _); [by vm_compute|vm_compute; lia|].
  exists records. split; [exact Hrun|]. by apply Hmany.
Defined.

Lemma token_filter_counts_space_pieces_witness :
  ∃ record records,
    eval (reverse_substitution ascii_table 38 (test_key, test_snippet) 1
            test_dictionary) (constant_rng 0) = Ret (record :: records).
Proof.
  destruct (token_filter_counts_space_pieces ascii_table test_key test_snippet
              1 test_dictionary (constant_rng 0)) as [Hfilter Hends].
  destruct (Hends test_dictionary_full 38) as (abbreviated & replacements & _);
    [vm_compute; lia|].
  apply (Hfilter 38 (py "the pt is in the er.")
           [(py "pt", py "patient"); (py "er", py "emergency room")]);
    [by vm_compute|vm_compute; lia].
Defined.

Lemma abbreviation_never_lengthens_witness :
  length (py "the pt is in the er.") ≤ length test_snippet.
Proof.
  destruct (abbreviation_never_lengthens ascii_table test_snippet 1
              test_dictionary (constant_rng 0) test_dictionary_short)
    as [Hlength Hends].
  destruct (Hends test_dictionary_full 38) as (abbreviated & replacements & _);
    [vm_compute; lia|].
  apply (Hlength 38 _ [(py "pt", py "patient"); (py "er", py "emergency room")]).
  by vm_compute.
Defined.

Lemma config_init_checks_nothing_witness :
  C4WSRSConfig_init (λ _ (_ : unit), Ret tt) (py "default") 3 (95 # 100) 4000 tt
  = Ret {| builder_config := tt;
           max_sentences_per_snippet := 3;
           abbreviation_rate := 95 # 100;
           num_snippets_per_replacement := 4000 |}.
Proof.
  apply (config_init_checks_nothing (λ _ (_ : unit), Ret tt)). reflexivity.
Defined.

Lemma test_run :
  eval (substitute ascii_table 38 test_snippet 1 test_dictionary)
    (constant_rng 0)
  = Ret (py "the pt is in the er.", test_replacements).
Proof. by vm_compute. Defined.

Lemma substitution_exchanges_expansions_witness :
  ∃ segments rest,
    test_replacements = segments.*2
    ∧ test_snippet = assemble snd segments rest
    ∧ py "the pt is in the er." = assemble fst segments rest.
Proof.
  exact (substitution_exchanges_expansions ascii_table 38 test_snippet 1
           test_dictionary (constant_rng 0) _ _ test_run).
Defined.

Lemma substitution_length_account_witness :
  length (py "the pt is in the er.")
  + sum_list (length ∘ snd <$> test_replacements)
  = length test_snippet + sum_list (length ∘ fst <$> test_replacements).
Proof.
  exact (substitution_length_account ascii_table 38 test_snippet 1
           test_dictionary (constant_rng 0) _ _ test_run).
Defined.

Lemma replacements_come_from_dictionary_witness :
  (py "pt", py "patient") ∈ _get_dictionary_pairs test_dictionary
  ∧ ∃ i, i < length test_snippet
         ∧ _snippet_contains_word_at_index ascii_table test_snippet
             (py "patient") i = Ret true.
Proof.
  apply (replacements_come_from_dictionary ascii_table 38 test_snippet 1
           test_dictionary (constant_rng 0) _ _ test_run).
  left.
Defined.

Lemma empty_expansions_never_end_witness :
  eval (reverse_substitution ascii_table 1000 (test_key, py "a - b") 1
          [(py "x", [[]])]) (constant_rng 0)
  = OutOfFuel.
Proof.
  apply (empty_expansions_never_end ascii_table test_key (py "a - b") 1
           [(py "x", [[]])] (constant_rng 0) 2).
  - exact constant_rng_ok.
  - apply Qle_refl.
  - discriminate.
  - intros a e Hin. apply list_elem_of_In in Hin. simpl in Hin.
    by destruct Hin as [[= <- <-]|[]].
  - vm_compute. lia.
  - reflexivity.
Defined.

Lemma empty_candidate_list_raises_witness :
  eval (_abbreviate_snippet 1 test_snippet {[ 0 := [] ]} 1)
    (constant_rng 0)
  = Raise IndexError.
Proof.
  apply (empty_candidate_list_raises 1 test_snippet 1
           {[ 0 := [] ]} (constant_rng 0) 0).
  - intros j Hj. lia.
  - reflexivity.
  - vm_compute. lia.
  - lia.
Defined.

Lemma no_candidate_no_draw_witness :
  reverse_substitution ascii_table 0 (test_key, test_snippet) 1 []
    (constant_rng 0)
  = Ret (sentinel_records, constant_rng 0).
Proof.
  apply (no_candidate_no_draw ascii_table 0 test_key test_snippet 1 []
           (constant_rng 0)).
  intros i Hi. reflexivity.
Defined.

Lemma records_iff_two_spaces_witness :
  ∃ abbreviated replacements,
    eval (substitute ascii_table 38 test_snippet 0 test_dictionary)
      (constant_rng 0) = Ret (abbreviated, replacements)
    ∧ (sentinel_records ≠ []
       ↔ 2 ≤ length (filter (λ c, c = space) abbreviated)).
Proof.
  apply (records_iff_two_spaces ascii_table 38 test_key test_snippet 0
           test_dictionary (constant_rng 0) sentinel_records).
  by vm_compute.
Defined.

Lemma loaders_agree_without_repeats_witness :
  _split_generators_dict (fields <$> test_replacements)
  = Ret (_convert_abbrev_expansion_table_to_dict test_replacements).
Proof.
  apply loaders_agree_without_repeats.
  apply (bool_decide_unpack _). by vm_compute.
Defined.

Lemma maximum_below_one_raises_witness :
  extract_snippets Ret ascii_lower ascii_table 1 test_doc 0
    (constant_np_rng (1 # 10))
  = Raise ValueError.
Proof.
  apply (maximum_below_one_raises Ret ascii_lower ascii_table 1 test_doc 0
           (constant_np_rng (1 # 10)) (doc_text test_doc));
    [lia|reflexivity|lia].
Defined.

Lemma extraction_ends_witness :
  ∃ snippets,
    extract_snippets Ret ascii_lower ascii_table 40 test_doc 1
      (constant_np_rng (1 # 10)) = Ret snippets
    ∧ length snippets ≤ length (sentences_of (doc_text test_doc)).
Proof.
  apply (extraction_ends Ret ascii_lower ascii_table 40 test_doc 1
           (constant_np_rng (1 # 10)) (doc_text test_doc) (doc_url test_doc));
    [lia|reflexivity|reflexivity|vm_compute; lia].
Defined.

Lemma test_extraction :
  extract_snippets Ret ascii_lower ascii_table 40 test_doc 1
    (constant_np_rng (1 # 10))
  = Ret test_snippets.
Proof. by vm_compute. Defined.

Lemma snippets_are_short_and_stripped_witness :
  length (py "this is a snippet.") ≤ 1024
  ∧ stripped ascii_table (py "this is a snippet.").
Proof.
  apply (snippets_are_short_and_stripped Ret ascii_lower ascii_table 40
           test_doc 1 (constant_np_rng (1 # 10)) test_snippets test_extraction
           (py "url=test/url.com,snippet_id=0")).
  left.
Defined.

Lemma snippet_keys_are_distinct_witness : NoDup test_snippets.*1.
Proof.
  apply (snippet_keys_are_distinct Ret ascii_lower ascii_table 40 test_doc 1
           (constant_np_rng (1 # 10)) test_snippets test_extraction).
Defined.

Lemma extraction_tiles_the_sentences_witness :
  ∃ (text u : str) (windows : list (list str)),
    Ret (doc_text test_doc) = Ret text
    ∧ Ret (doc_url test_doc) = Ret u
    ∧ concat windows = sentences_of text
    ∧ Forall (λ window, 1 ≤ length window ≤ Z.to_nat 1) windows
    ∧ ∀ key snippet, (key, snippet) ∈ test_snippets →
        ∃ n window,
          key = snippet_key u n
          ∧ windows !! n = Some window
          ∧ (snippet = strip ascii_table (ascii_lower (join (py ". ") window))
             ∨ endswith_period (join (py ". ") window) = false
               ∧ snippet = strip ascii_table
                             (ascii_lower (join (py ". ") window ++ py "."))).
Proof.
  exact (extraction_tiles_the_sentences Ret ascii_lower ascii_table 40
           test_doc 1 (constant_np_rng (1 # 10)) test_snippets test_extraction).
Defined.

Lemma half_rng_ok : rng_ok (constant_rng (1 # 2)).
Proof. intros k. simpl. split; [discriminate|reflexivity]. Defined.

Lemma certain_rates_ignore_uniform_draws_witness :
  eval (reverse_substitution ascii_table 38 (test_key, test_snippet) 1
          test_dictionary) (constant_rng 0)
  = eval (reverse_substitution ascii_table 38 (test_key, test_snippet) 1
            test_dictionary) (constant_rng (1 # 2)).
Proof.
  apply certain_rates_ignore_uniform_draws;
    [exact constant_rng_ok|exact half_rng_ok|reflexivity|].
  left. apply Qle_refl.
Defined.

Lemma records_of_extracted_snippets_witness :
  py "url=test/url.com,snippet_id=0" = py "url=test/url.com,snippet_id=0"
  ∧ py "this is a snippet." = py "this is a snippet."
  ∧ length (py "this is a snippet.") ≤ 1024
  ∧ stripped ascii_table (py "this is a snippet.")
  ∧ 2 ≤ length (filter (λ c, c = space) (py "this is a snippet."))
  ∧ (([], []) = (([], []) : str * str)
     ∨ ([], []) ∈ _get_dictionary_pairs test_dictionary).
Proof.
  pose proof (records_of_extracted_snippets ascii_table Ret ascii_lower
           ascii_table 40 test_doc 1 (constant_np_rng (1 # 10)) test_snippets
           (py "url=test/url.com,snippet_id=0") (py "this is a snippet.")
           38 0 test_dictionary (constant_rng 0)
           [(([], []), (py "url=test/url.com,snippet_id=0",
                        {| original_snippet := py "this is a snippet.";
                           abbreviated_snippet := py "this is a snippet." |}))]
           test_extraction) as Hrecords.
  apply (Hrecords ltac:(left) ltac:(by vm_compute) ([], [])
           (py "url=test/url.com,snippet_id=0")
           {| original_snippet := py "this is a snippet.";
              abbreviated_snippet := py "this is a snippet." |}).
  left.
Defined.

(** * Where the design document and the code part *)

(** C3: a configuration whose three values are all out of range is
    built without an error. *)
Lemma config_accepts_out_of_range :
  C4WSRSConfig_init (λ _ (_ : unit), Ret tt) (py "bad") 0 2 (-1) tt
  = Ret {| builder_config := tt;
           max_sentences_per_snippet := 0;
           abbreviation_rate := 2;
           num_snippets_per_replacement := -1 |}
  ∧ (1 < 2)%Q ∧ (0 < 1)%Z ∧ (-1 < 0)%Z.
Proof. split_and!; [reflexivity|reflexivity|lia|lia]. Qed.

(** C4: the text "a<TAB>b<TAB>c" has three whitespace-delimited tokens,
    and it gives no record, as it has no space. *)
Lemma tab_separated_tokens_are_dropped :
  length (whitespace_tokens tabbed_snippet) = 3
  ∧ eval (reverse_substitution ascii_table 6 (test_key, tabbed_snippet) 1 [])
      (constant_rng 0) = Ret [].
Proof. split; by vm_compute. Qed.

(** C6: with "doctor" listed as an abbreviation of "dr", the abbreviated
    snippet is longer than the snippet. *)
Lemma abbreviation_can_lengthen :
  eval (substitute ascii_table 9 (py "see dr x") 1 [(py "doctor", [py "dr"])])
    (constant_rng 0)
  = Ret (py "see doctor x", [(py "doctor", py "dr")])
  ∧ ¬ length (py "see doctor x") ≤ length (py "see dr x").
Proof. split; [by vm_compute|vm_compute; lia]. Qed.

(** C8: the text "a<TAB>b<TAB>c" has three whitespace-delimited tokens,
    and at rate 0 it gives no record. *)
Lemma rate_zero_drops_tab_separated_tokens :
  length (whitespace_tokens tabbed_snippet) = 3
  ∧ eval (reverse_substitution ascii_table 6 (test_key, tabbed_snippet) 0
            test_dictionary) (constant_rng 0) = Ret [].
Proof. split; by vm_compute. Qed.

(** C9: with the empty abbreviation listed for the empty expansion, the
    snippet "a - b" at rate 1/2 has the replacement list [("", "")],
    which is not empty, and its one record is keyed by the sentinel. *)
Lemma empty_pair_is_keyed_by_sentinel :
  eval (substitute ascii_table 7 (py "a - b") (1 # 2) [([], [[]])])
    first_draw_rng
  = Ret (py "a - b", [([], [])])
  ∧ [(([], []) : str * str)] ≠ []
  ∧ 3 ≤ length (split space (py "a - b"))
  ∧ eval (reverse_substitution ascii_table 7 (test_key, py "a - b") (1 # 2)
            [([], [[]])]) first_draw_rng
    = Ret [(([], []), (test_key, {| original_snippet := py "a - b";
                                    abbreviated_snippet := py "a - b" |}))].
Proof. split_and!; [by vm_compute|done|vm_compute; lia|by vm_compute]. Qed.
